(** * Transit graph, dense Dijkstra and fairness ranking

    A shallow embedding of [lib/graph.ts] (the [Graph] class and [dijkstra])
    and of [calculateResults] in [App.tsx], with the properties the
    specification states about them.

    Modelling conventions.
    - A TypeScript [number] that is always finite (edge weight, rent, budget,
      ratio, lambda, score) is an exact rational [Q]: no rounding, no NaN.
    - A [number] that may be [Infinity] (a tentative distance) is a [num]:
      either [Fin q] or [Inf].
    - A JavaScript [Map] or [Set] iterates in insertion order, and that order
      is observable here (station listing, tie-breaks), so both are lists
      without repeated keys, in insertion order. *)

From Stdlib Require Import List String Bool Arith Lia.
From Stdlib Require Import QArith Qminmax Qabs Lqa.
From Stdlib Require Import Permutation Sorted.
Import ListNotations.

Local Open Scope string_scope.
Local Open Scope list_scope.
Local Open Scope Q_scope.

(** ** JavaScript numbers *)

(** [a < b] on finite numbers, as a boolean. *)
Definition Qltb (a b : Q) : bool :=
  match a ?= b with Lt => true | _ => false end.

Inductive num : Type :=
| Fin (q : Q)
| Inf.

(** [a < b] where either side may be [Infinity]. *)
Definition num_ltb (a b : num) : bool :=
  match a, b with
  | Fin x, Fin y => Qltb x y
  | Fin _, Inf => true
  | Inf, _ => false
  end.

(** [a + w] for a finite [w]. *)
Definition num_add (a : num) (w : Q) : num :=
  match a with
  | Fin x => Fin (x + w)
  | Inf => Inf
  end.

(** [a === Infinity]. *)
Definition is_Inf (a : num) : bool :=
  match a with Inf => true | Fin _ => false end.

(** [a <= b] as a proposition, [Infinity] on top. *)
Definition num_le (a b : num) : Prop :=
  match a, b with
  | Fin x, Fin y => x <= y
  | _, Inf => True
  | Inf, Fin _ => False
  end.

(** ** Insertion-ordered maps and sets *)

Module JsMap.

Definition t (V : Type) : Type := list (string * V).

Definition empty {V : Type} : t V := [].

Fixpoint get {V : Type} (k : string) (m : t V) : option V :=
  match m with
  | [] => None
  | (k', v) :: m' => if String.eqb k k' then Some v else get k m'
  end.

Definition has {V : Type} (k : string) (m : t V) : bool :=
  match get k m with Some _ => true | None => false end.

(** [m.set(k, v)]: an existing key keeps its place, a new one goes last. *)
Fixpoint set {V : Type} (k : string) (v : V) (m : t V) : t V :=
  match m with
  | [] => [(k, v)]
  | (k', v') :: m' =>
      if String.eqb k k' then (k', v) :: m' else (k', v') :: set k v m'
  end.

Definition keys {V : Type} (m : t V) : list string := map fst m.

Definition values {V : Type} (m : t V) : list V := map snd m.

End JsMap.

Module JsSet.

Definition t : Type := list string.

Definition empty : t := [].

Definition has (k : string) (s : t) : bool :=
  existsb (String.eqb k) s.

Definition add (k : string) (s : t) : t :=
  if has k s then s else s ++ [k].

Definition delete (k : string) (s : t) : t :=
  filter (fun k' => negb (String.eqb k k')) s.

Definition size (s : t) : nat := List.length s.

End JsSet.

(** ** The graph store *)

Record Station : Type := mkStation {
  id : string;
  name : string;
  rent : Q;
  safetyScore : Q
}.

Record Edge : Type := mkEdge {
  to : string;
  weight : Q
}.

Record Graph : Type := mkGraph {
  nodes : JsMap.t Station;
  edges : JsMap.t (list Edge)
}.

Definition newGraph : Graph := mkGraph JsMap.empty JsMap.empty.

Definition addNode (station : Station) (g : Graph) : Graph :=
  if JsMap.has (id station) (nodes g) then g
  else mkGraph (JsMap.set (id station) station (nodes g))
               (JsMap.set (id station) [] (edges g)).

(** [m.get(k)?.push(e)]: appends to the array stored under [k]; does nothing
    when [k] has no array. *)
Definition push_at (k : string) (e : Edge) (m : JsMap.t (list Edge))
  : JsMap.t (list Edge) :=
  match JsMap.get k m with
  | Some l => JsMap.set k (l ++ [e]) m
  | None => m
  end.

Definition addEdge (from to' : string) (weight' : Q) (g : Graph) : Graph :=
  let edges1 := push_at from (mkEdge to' weight') (edges g) in
  let edges2 := push_at to' (mkEdge from weight') edges1 in
  mkGraph (nodes g) edges2.

Definition getStation (id' : string) (g : Graph) : option Station :=
  JsMap.get id' (nodes g).

Definition getAllStations (g : Graph) : list Station :=
  JsMap.values (nodes g).

(** The adjacency array of [k], [graph.edges.get(k) || []]. *)
Definition adjacency (g : Graph) (k : string) : list Edge :=
  match JsMap.get k (edges g) with
  | Some l => l
  | None => []
  end.

(** Graphs are assembled by calls of the two mutators. *)
Inductive GraphCall : Type :=
| CallAddNode (station : Station)
| CallAddEdge (from to' : string) (weight' : Q).

Definition call (g : Graph) (c : GraphCall) : Graph :=
  match c with
  | CallAddNode s => addNode s g
  | CallAddEdge a b w => addEdge a b w g
  end.

Definition build (cs : list GraphCall) : Graph :=
  fold_left call cs newGraph.

(** ** Shortest distances *)

Definition DistanceMap : Type := JsMap.t num.

(** The first loop of [dijkstra]: every station at [Infinity] and unvisited. *)
Definition init_step (acc : DistanceMap * JsSet.t) (kv : string * Station)
  : DistanceMap * JsSet.t :=
  (JsMap.set (fst kv) Inf (fst acc), JsSet.add (fst kv) (snd acc)).

Definition init_all (g : Graph) : DistanceMap * JsSet.t :=
  fold_left init_step (nodes g) (JsMap.empty, JsSet.empty).

(** The selection loop: the first unvisited id of strictly least distance.
    [distances.get(id)!] that is [undefined] compares false. *)
Definition select_step (distances : DistanceMap)
  (acc : option string * num) (id' : string) : option string * num :=
  match JsMap.get id' distances with
  | Some dist => if num_ltb dist (snd acc) then (Some id', dist) else acc
  | None => acc
  end.

Definition select_min (distances : DistanceMap) (unvisited : JsSet.t)
  : option string * num :=
  fold_left (select_step distances) unvisited (None, Inf).

(** The relaxation of one adjacency entry of the selected station. *)
Definition relax_step (unvisited : JsSet.t) (minDistance : num)
  (distances : DistanceMap) (edge : Edge) : DistanceMap :=
  if JsSet.has (to edge) unvisited then
    let newDist := num_add minDistance (weight edge) in
    match JsMap.get (to edge) distances with
    | Some old =>
        if num_ltb newDist old then JsMap.set (to edge) newDist distances
        else distances
    | None => distances
    end
  else distances.

Definition relax_all (unvisited : JsSet.t) (minDistance : num)
  (es : list Edge) (distances : DistanceMap) : DistanceMap :=
  fold_left (relax_step unvisited minDistance) es distances.

(** The [while] loop, with a bound on the number of iterations; [None] means
    the bound was reached before the loop ended. *)
Fixpoint dijkstra_loop (fuel : nat) (g : Graph)
  (distances : DistanceMap) (unvisited : JsSet.t) : option DistanceMap :=
  match fuel with
  | O => None
  | S fuel' =>
      if (0 <? JsSet.size unvisited)%nat then
        match select_min distances unvisited with
        | (None, _) => Some distances
        | (Some currentId, minDistance) =>
            if is_Inf minDistance then Some distances
            else
              let unvisited' := JsSet.delete currentId unvisited in
              dijkstra_loop fuel' g
                (relax_all unvisited' minDistance (adjacency g currentId)
                   distances)
                unvisited'
        end
      else Some distances
  end.

(** The state on entry to the [while] loop. *)
Definition dijkstra_start (g : Graph) (startId : string)
  : DistanceMap * JsSet.t :=
  let (distances, unvisited) := init_all g in
  (JsMap.set startId (Fin 0) distances, unvisited).

Definition dijkstra_run (g : Graph) (startId : string) : option DistanceMap :=
  let (distances, unvisited) := dijkstra_start g startId in
  dijkstra_loop (S (JsSet.size unvisited)) g distances unvisited.

(** [dijkstra_run] never reaches its bound ([dijkstra_run_returns] below), so
    the default is never taken. *)
Definition dijkstra (g : Graph) (startId : string) : DistanceMap :=
  match dijkstra_run g startId with
  | Some distances => distances
  | None => JsMap.empty
  end.

(** ** Outcomes of a call

    The specification speaks of calls that fail with an error.  Neither
    [Graph.addEdge] nor [dijkstra] contains a [throw], and none of the
    operations they use can raise: every call returns. *)

Inductive ErrorKind : Type :=
| UnknownStation
| NotFound.

Inductive Outcome (A : Type) : Type :=
| Returns (a : A)
| Throws (e : ErrorKind).

Arguments Returns {A} a.
Arguments Throws {A} e.

Definition addEdge_outcome (from to' : string) (weight' : Q) (g : Graph)
  : Outcome Graph :=
  Returns (addEdge from to' weight' g).

Definition dijkstra_outcome (g : Graph) (startId : string)
  : Outcome DistanceMap :=
  Returns (dijkstra g startId).

(** ** The ranking computation of [App.tsx] *)

Inductive AppStep : Type :=
| INPUT
| LOADING
| RESULTS.

Record SearchParams : Type := mkParams {
  workplaceA : string;
  workplaceB : string;
  budget : Q;
  ratio : Q;
  lambda : Q
}.

(** The explanation text is one of three fixed templates filled with the
    station name; the template text itself is presentation only. *)
Inductive Reason : Type :=
| Balanced (name' : string)
| FavoursA (name' : string)
| FavoursB (name' : string).

(** [StationResult extends Station]: [station] holds the fields copied by
    [...station]. *)
Record StationResult : Type := mkResult {
  station : Station;
  timeA : Q;
  timeB : Q;
  score : Q;
  aiReason : Reason
}.

Record AppState : Type := mkApp {
  step : AppStep;
  graph : Graph;
  params : SearchParams;
  results : list StationResult
}.

(** [useMemo(() => graph.getAllStations(), [graph])]. *)
Definition stations (s : AppState) : list Station :=
  getAllStations (graph s).

Definition generateMockAIReasons (name' : string) (timeA' timeB' : Q)
  : Reason :=
  let diff := Qabs (timeA' - timeB') in
  if Qle_bool diff 5 then Balanced name'
  else if Qltb timeA' timeB' then FavoursA name'
  else FavoursB name'.

(** The pair [(wA, wB)] after the [if (ratio < 50) ... else if (ratio > 50)]
    statement. *)
Definition weights (ratio' : Q) : Q * Q :=
  if Qltb ratio' 50 then
    (1 + (50 - ratio') / 25, Qmax (1 # 2) (1 - (50 - ratio') / 50))
  else if Qltb 50 ratio' then
    (Qmax (1 # 2) (1 - (ratio' - 50) / 50), 1 + (ratio' - 50) / 25)
  else (1, 1).

(** The body of [stations.forEach]: [None] is the early [return]. *)
Definition score_station (distA distB : DistanceMap) (wA wB : Q)
  (lambda' budget' : Q) (station' : Station) : option StationResult :=
  match JsMap.get (id station') distA, JsMap.get (id station') distB with
  | Some (Fin timeA'), Some (Fin timeB') =>
      let scoreSum := wA * timeA' + wB * timeB' in
      let scoreFair := Qmax (wA * timeA') (wB * timeB') in
      let weightedTimeScore :=
        lambda' * scoreFair + (1 - lambda') * scoreSum in
      let displayScore := 100 - (weightedTimeScore / 120) * 100 in
      let displayScore :=
        if Qltb budget' (rent station') then displayScore - 15
        else displayScore in
      Some (mkResult station' timeA' timeB'
              (Qmax 0 (Qmin 100 displayScore))
              (generateMockAIReasons (name station') timeA' timeB'))
  | _, _ => None
  end.

Definition push_scored (distA distB : DistanceMap) (wA wB : Q)
  (lambda' budget' : Q) (acc : list StationResult) (station' : Station)
  : list StationResult :=
  match score_station distA distB wA wB lambda' budget' station' with
  | Some r => acc ++ [r]
  | None => acc
  end.

(** [Array.prototype.sort] is a built-in; ECMAScript specifies it as a stable
    sort by the sign of the comparator.  It is modelled by the stable
    insertion sort: [x], which stood before every element of [l], moves
    behind [y] only when [cmp x y > 0].  For the comparator used here any
    stable sort returns the same list ([sort_by_score_unique]). *)
Fixpoint insert_by {A : Type} (cmp : A -> A -> Q) (x : A) (l : list A)
  : list A :=
  match l with
  | [] => [x]
  | y :: l' => if Qltb 0 (cmp x y) then y :: insert_by cmp x l' else x :: l
  end.

Definition sort_by {A : Type} (cmp : A -> A -> Q) (l : list A) : list A :=
  fold_right (insert_by cmp) [] l.

(** The comparator [(a, b) => b.score - a.score]. *)
Definition by_score_desc (a b : StationResult) : Q := score b - score a.

(** The two distance maps computed at the start of [calculateResults]. *)
Definition distA (s : AppState) : DistanceMap :=
  dijkstra (graph s) (workplaceA (params s)).

Definition distB (s : AppState) : DistanceMap :=
  dijkstra (graph s) (workplaceB (params s)).

(** [scoredStations] just before it is sorted. *)
Definition scoredStations (s : AppState) : list StationResult :=
  let (wA, wB) := weights (ratio (params s)) in
  fold_left
    (push_scored (distA s) (distB s) wA wB
       (lambda (params s)) (budget (params s)))
    (stations s) [].

Definition calculateResults (s : AppState) : AppState :=
  let sorted := sort_by by_score_desc (scoredStations s) in
  mkApp (step s) (graph s) (params s) (firstn 10 sorted).

(** ** Notions used by the statements *)

(** [k] is a station of [g]. *)
Definition is_station (g : Graph) (k : string) : Prop :=
  JsMap.has k (nodes g) = true.

(** No adjacency entry has a negative weight. *)
Definition weights_nonneg (g : Graph) : Prop :=
  forall k e, In e (adjacency g k) -> 0 <= weight e.

(** Every adjacency entry has its mirror entry. *)
Definition symmetric (g : Graph) : Prop :=
  forall u v w,
    In (mkEdge v w) (adjacency g u) -> In (mkEdge u w) (adjacency g v).

(** Every [addEdge] of the sequence names two stations already added. *)
Fixpoint endpoints_known (g : Graph) (cs : list GraphCall) : Prop :=
  match cs with
  | [] => True
  | c :: cs' =>
      match c with
      | CallAddNode _ => True
      | CallAddEdge a b _ => is_station g a /\ is_station g b
      end /\ endpoints_known (call g c) cs'
  end.

(** The distance map has a finite entry for [k]. *)
Definition finite_at (d : DistanceMap) (k : string) : Prop :=
  exists q, JsMap.get k d = Some (Fin q).

(** What the loop body makes of one station. *)
Definition score_of (s : AppState) (station' : Station)
  : option StationResult :=
  score_station (distA s) (distB s)
    (fst (weights (ratio (params s)))) (snd (weights (ratio (params s))))
    (lambda (params s)) (budget (params s)) station'.

(** [r] belongs to the class of score [q]. *)
Definition has_score (q : Q) (r : StationResult) : bool :=
  Qeq_bool (score r) q.

(** [Math.max(0, Math.min(100, x))]. *)
Definition clamp_0_100 (x : Q) : Q := Qmax 0 (Qmin 100 x).

(** The score before the budget penalty, as the specification writes it. *)
Definition unpenalized_score (wA wB lambda' timeA' timeB' : Q) : Q :=
  100 - ((lambda' * Qmax (wA * timeA') (wB * timeB')
          + (1 - lambda') * (wA * timeA' + wB * timeB')) / 120) * 100.

(** ** Invariants used by the proofs *)

(** The two maps of a graph have the same keys. *)
Definition graph_ok (g : Graph) : Prop :=
  forall k, JsMap.has k (edges g) = JsMap.has k (nodes g).

(** A decidable form of [weights_nonneg]. *)
Definition weights_nonnegb (g : Graph) : bool :=
  forallb (fun kv => forallb (fun e => Qle_bool 0 (weight e)) (snd kv))
    (edges g).

(** The source keeps distance 0; while it is unvisited every other
    unvisited station is at [Infinity]. *)
Definition source_inv (startId : string) (d : DistanceMap) (u : JsSet.t)
  : Prop :=
  JsMap.get startId d = Some (Fin 0) /\
  (In startId u ->
   forall y, In y u -> y <> startId -> JsMap.get y d = Some Inf).

(** Nothing has happened yet. *)
Definition start_inv (g : Graph) (startId : string)
  (d : DistanceMap) (u : JsSet.t) : Prop :=
  d = fst (dijkstra_start g startId) /\ u = snd (dijkstra_start g startId).

(** The visited stations are settled: none is farther than an unvisited
    one, and each of their adjacency entries is relaxed. *)
Record settled_inv (g : Graph) (d : DistanceMap) (u : JsSet.t) : Prop := {
  inv_keys : forall k, is_station g k -> exists dk, JsMap.get k d = Some dk;
  inv_unvisited : forall k, In k u -> is_station g k;
  inv_settled :
    forall x y dx dy,
      is_station g x -> ~ In x u -> In y u ->
      JsMap.get x d = Some dx -> JsMap.get y d = Some dy ->
      num_le dx dy;
  inv_relaxed :
    forall x e dx dv,
      is_station g x -> ~ In x u ->
      In e (adjacency g x) -> is_station g (to e) ->
      JsMap.get x d = Some dx -> JsMap.get (to e) d = Some dv ->
      num_le dv (num_add dx (weight e))
}.

Definition opt_list {A : Type} (o : option A) : list A :=
  match o with Some a => [a] | None => [] end.

(** [a] may stand before [b]: its score is not smaller. *)
Definition score_ge (a b : StationResult) : Prop := score b <= score a.


(** ** Test data *)

Definition st (i : string) (r : Q) : Station := mkStation i i r 3.

(** The line X - Y - Z of the specification's example. *)
Definition line_calls : list GraphCall :=
  [CallAddNode (st "X" 10); CallAddNode (st "Y" 20); CallAddNode (st "Z" 30);
   CallAddEdge "X" "Y" 3; CallAddEdge "Y" "Z" 4].

Definition line_XYZ : Graph := build line_calls.

(** A graph with a negative weight. *)
Definition negative_calls : list GraphCall :=
  [CallAddNode (st "X" 10); CallAddNode (st "Y" 20); CallAddNode (st "Z" 30);
   CallAddEdge "X" "Y" 1; CallAddEdge "X" "Z" 5; CallAddEdge "Z" "Y" (-10)].

(** A station added, then an edge towards an id never added. *)
Definition dangling_calls : list GraphCall :=
  [CallAddNode (st "X" 10); CallAddEdge "X" "Q" 3].

Definition search_XZ : SearchParams := mkParams "X" "Z" 15 50 (1 # 2).

(** Two application states with the same graph and parameters: one before
    any search, one showing an older result. *)
Definition app_fresh : AppState := mkApp INPUT line_XYZ search_XZ [].

Definition app_stale : AppState :=
  mkApp RESULTS line_XYZ search_XZ
    [mkResult (st "Y" 20) 1 1 50 (Balanced "Y")].

(** Two routes from A to B: through P (5 + 5 minutes) and through Q
    (10 + 10 minutes); Q is listed before P. *)
Definition fork_AB : Graph :=
  build [CallAddNode (st "A" 10); CallAddNode (st "B" 10);
         CallAddNode (st "Q" 10); CallAddNode (st "P" 10);
         CallAddEdge "A" "P" 5; CallAddEdge "P" "B" 5;
         CallAddEdge "A" "Q" 10; CallAddEdge "Q" "B" 10].

Definition app_fork : AppState :=
  mkApp INPUT fork_AB (mkParams "A" "B" 100 50 0) [].

(** ** Walks through the stations *)

(** [walk g s k q]: from [s] one reaches [k] along adjacency entries
    between stations, and the weights of the entries add up to [q]. *)
Inductive walk (g : Graph) (s : string) : string -> Q -> Prop :=
| walk_here : walk g s s 0
| walk_step (u : string) (e : Edge) (q : Q) :
    walk g s u q ->
    is_station g u -> is_station g (to e) -> In e (adjacency g u) ->
    walk g s (to e) (q + weight e).

(** Every finite tentative distance is the weight of a walk. *)
Definition walk_inv (g : Graph) (s : string) (d : DistanceMap) (u : JsSet.t)
  : Prop :=
  (forall k, In k u -> is_station g k) /\
  (forall k q, JsMap.get k d = Some (Fin q) -> walk g s k q).

(** Two stations and no edge. *)
Definition island_XY : Graph :=
  build [CallAddNode (st "X" 10); CallAddNode (st "Y" 20)].

(** ** Notions for the graph store *)

(** The first station registered under [k] by a sequence of calls. *)
Fixpoint first_added (k : string) (cs : list GraphCall) : option Station :=
  match cs with
  | [] => None
  | CallAddNode s :: cs' =>
      if String.eqb k (id s) then Some s else first_added k cs'
  | CallAddEdge _ _ _ :: cs' => first_added k cs'
  end.

(** The number of adjacency entries of a graph. *)
Definition total_entries (g : Graph) : nat :=
  list_sum (map (fun kv => List.length (snd kv)) (edges g)).

(** The number of [addEdge] calls of a sequence. *)
Definition count_addEdge (cs : list GraphCall) : nat :=
  List.length
    (filter (fun c => match c with CallAddEdge _ _ _ => true | _ => false end)
       cs).

(** Every station is stored once, under its own id. *)
Definition nodes_ok (g : Graph) : Prop :=
  NoDup (JsMap.keys (nodes g)) /\
  Forall (fun kv => id (snd kv) = fst kv) (nodes g).

(** ** The search button of [App.tsx] *)

Inductive Alert : Type :=
| AlertEnterBoth
| AlertNotFound.

(** [!str] on a string: only the empty string is falsy. *)
Definition is_empty (str : string) : bool :=
  match str with
  | EmptyString => true
  | String _ _ => false
  end.

(** [handleSearch] up to the point where it arms the timer: the state it
    leaves and the alert it shows, if any.  The timer and its callback are
    not modelled. *)
Definition handleSearch (s : AppState) : AppState * option Alert :=
  if (is_empty (workplaceA (params s)) || is_empty (workplaceB (params s)))%bool
  then (s, Some AlertEnterBoth)
  else if (negb (JsMap.has (workplaceA (params s)) (nodes (graph s)))
           || negb (JsMap.has (workplaceB (params s)) (nodes (graph s))))%bool
  then (s, Some AlertNotFound)
  else (mkApp LOADING (graph s) (params s) (results s), None).

(** ** The demonstration network of [initializeGraph]

    [Math.random()] is a supply of numbers in [0, 1): the [n]-th call
    returns [draws n].  A computation that draws takes the supply and the
    number of calls made so far, and returns its value with the new count. *)

From Stdlib Require Import ZArith Qround.

Definition Rand (A : Type) : Type := (nat -> Q) -> nat -> A * nat.

Definition ret {A : Type} (a : A) : Rand A := fun _ n => (a, n).

Definition bind {A B : Type} (m : Rand A) (f : A -> Rand B) : Rand B :=
  fun draws n => let (a, n') := m draws n in f a draws n'.

Notation "x <- m ;; k" := (bind m (fun x => k))
  (at level 61, m at next level, right associativity).

(** [Math.random()]. *)
Definition random : Rand Q := fun draws n => (draws n, S n).

(** Every draw lies in [0, 1). *)
Definition unit_draws (draws : nat -> Q) : Prop :=
  forall n, 0 <= draws n < 1.

Definition calculateDummyRent (name' : string) (index total : nat)
  (isCenter : bool) : Q :=
  let base := if isCenter then 180000 else 150000 in
  let distanceDiscount :=
    Qabs (inject_Z (Z.of_nat index) - inject_Z (Z.of_nat total) / 2) * 3000 in
  Qmax 60000 (base - distanceDiscount).

Definition calculateDummySafety : Rand Q :=
  r <- random ;; ret (inject_Z (Qfloor (r * 3)) + 3).

(** [2 + Math.floor(Math.random() * 3)], the minutes of a new edge. *)
Definition randomMinutes : Rand Q :=
  r <- random ;; ret (2 + inject_Z (Qfloor (r * 3))).

(** The [forEach] of [addLine], from index [i] on. *)
Fixpoint addLine_nodes (names : list string) (i total : nat)
  (isCenter : bool) (g : Graph) : Rand Graph :=
  match names with
  | [] => ret g
  | name' :: rest =>
      g' <- (if JsMap.has name' (nodes g) then ret g
             else
               safety <- calculateDummySafety ;;
               ret (addNode
                      (mkStation name' name'
                         (calculateDummyRent name' i total isCenter) safety)
                      g)) ;;
      addLine_nodes rest (S i) total isCenter g'
  end.

(** The [for] loop of [addLine] over consecutive names. *)
Fixpoint addLine_edges (names : list string) (g : Graph) : Rand Graph :=
  match names with
  | a :: ((b :: _) as rest) =>
      w <- randomMinutes ;; addLine_edges rest (addEdge a b w g)
  | _ => ret g
  end.

(** [stations[stations.length - 1]], [undefined] for an empty array. *)
Definition last_name (names : list string) : option string :=
  match names with
  | [] => None
  | a :: rest => Some (last rest a)
  end.

(** The closing edge of a loop line.  With an empty array both arguments
    are [undefined], which is no key of [edges]: nothing is stored. *)
Definition addLine_loop (names : list string) (isLoop : bool) (g : Graph)
  : Rand Graph :=
  if isLoop then
    w <- randomMinutes ;;
    ret (match last_name names, hd_error names with
         | Some a, Some b => addEdge a b w g
         | _, _ => g
         end)
  else ret g.

Definition addLine (names : list string) (isLoop isCenter : bool)
  (g : Graph) : Rand Graph :=
  g1 <- addLine_nodes names 0 (List.length names) isCenter g ;;
  g2 <- addLine_edges names g1 ;;
  addLine_loop names isLoop g2.

(** The station names are kept as they are written in the source, in
    UTF-8: two names are the same JavaScript string exactly when their
    bytes are the same, and the graph only ever compares them. *)
Definition yamanoteStations : list string :=
  ["東京"; "神田"; "秋葉原"; "御徒町"; "上野"; "鶯谷"; "日暮里"; "西日暮里";
   "田端"; "駒込"; "巣鴨"; "大塚"; "池袋"; "目白"; "高田馬場"; "新大久保";
   "新宿"; "代々木"; "原宿"; "渋谷"; "恵比寿"; "目黒"; "五反田"; "大崎";
   "品川"; "高輪ゲートウェイ"; "田町"; "浜松町"; "新橋"; "有楽町"].

Definition chuoStations : list string :=
  ["東京"; "神田"; "御茶ノ水"; "水道橋"; "飯田橋"; "市ケ谷"; "四ツ谷";
   "信濃町"; "千駄ケ谷"; "代々木"; "新宿"; "大久保"; "東中野"; "中野";
   "高円寺"; "阿佐ケ谷"; "荻窪"; "西荻窪"; "吉祥寺"; "三鷹"; "武蔵境";
   "東小金井"; "武蔵小金井"; "国分寺"; "西国分寺"; "国立"; "立川"; "日野";
   "豊田"; "八王子"].

Definition keihinTohokuStations : list string :=
  ["大宮"; "さいたま新都心"; "与野"; "北浦和"; "浦和"; "南浦和"; "蕨";
   "西川口"; "川口"; "赤羽"; "東十条"; "王子"; "上中里"; "田端";
   "西日暮里"; "日暮里"; "鶯谷"; "上野"; "御徒町"; "秋葉原"; "神田";
   "東京"; "有楽町"; "新橋"; "浜松町"; "田町"; "高輪ゲートウェイ"; "品川";
   "大井町"; "大森"; "蒲田"; "川崎"; "鶴見"; "新子安"; "東神奈川"; "横浜"].

Definition toyokoStations : list string :=
  ["渋谷"; "代官山"; "中目黒"; "祐天寺"; "学芸大学"; "都立大学";
   "自由が丘"; "田園調布"; "多摩川"; "新丸子"; "武蔵小杉"; "元住吉";
   "日吉"; "綱島"; "大倉山"; "菊名"; "妙蓮寺"; "白楽"; "東白楽"; "反町";
   "横浜"].

Definition initializeGraph : Rand Graph :=
  g1 <- addLine yamanoteStations true true newGraph ;;
  g2 <- addLine chuoStations false false g1 ;;
  g3 <- addLine keihinTohokuStations false false g2 ;;
  addLine toyokoStations false false g3.

(** A supply for tests: 0.9, 0.5, 0.1, 0.9, ... *)
Definition test_draws (n : nat) : Q :=
  match Nat.modulo n 3 with
  | O => 9 # 10
  | S O => 1 # 2
  | _ => 1 # 10
  end.

(** ** Notions for the demonstration network *)

(** What [addLine] may pass to the graph: a station named by its id, with
    a rent between 60000 and 180000 and a safety score from 3 to 5, or an
    edge of 2 to 4 minutes. *)
Definition demo_call (c : GraphCall) : Prop :=
  match c with
  | CallAddNode s =>
      name s = id s /\ 60000 <= rent s <= 180000 /\
      exists z, safetyScore s = inject_Z z + 3 /\ (0 <= z <= 2)%Z
  | CallAddEdge _ _ w =>
      exists z, w = 2 + inject_Z z /\ (0 <= z <= 2)%Z
  end.

(** Some walk leads from [a] to [b]. *)
Definition reach (g : Graph) (a b : string) : Prop :=
  exists q, walk g a b q.

(** Each name of [l] is joined to the one before it, starting from [h], by
    an [addEdge] call of [cs]. *)
Fixpoint linked_by (cs : list GraphCall) (h : string) (l : list string)
  : Prop :=
  match l with
  | [] => True
  | b :: l' => (exists w, In (CallAddEdge h b w) cs) /\ linked_by cs b l'
  end.

(** [c] adds a station named in [names]. *)
Definition node_call_of (names : list string) (c : GraphCall) : Prop :=
  match c with
  | CallAddNode s => In (id s) names
  | CallAddEdge _ _ _ => False
  end.

(** [c] adds an edge between two names of [names]. *)
Definition edge_call_of (names : list string) (c : GraphCall) : Prop :=
  match c with
  | CallAddNode _ => False
  | CallAddEdge a b _ => In a names /\ In b names
  end.

(** The head of a line is linked to every later name of the line. *)
Definition line_linked (cs : list GraphCall) (names : list string) : Prop :=
  match names with
  | [] => True
  | h :: l => linked_by cs h l
  end.

(** What one [addLine] passes to the graph. *)
Definition line_calls_ok (names : list string) (cs : list GraphCall)
  : Prop :=
  Forall demo_call cs /\
  Forall (fun c => node_call_of names c \/ edge_call_of names c) cs /\
  line_linked cs names.

Definition demo_lines : list (list string) :=
  [yamanoteStations; chuoStations; keihinTohokuStations; toyokoStations].

(** What [initializeGraph] passes to the graph. *)
Definition network_calls (cs : list GraphCall) : Prop :=
  endpoints_known newGraph cs /\
  Forall demo_call cs /\
  Forall (fun c => exists names, In names demo_lines /\
                     (node_call_of names c \/ edge_call_of names c)) cs /\
  Forall (line_linked cs) demo_lines.

(** No name occurs twice, as a boolean. *)
Fixpoint distinctb (l : list string) : bool :=
  match l with
  | [] => true
  | x :: l' => (negb (JsSet.has x l') && distinctb l')%bool
  end.


(** ** What a run of the built-in sort may return

    [calculateResults] leaves the arrangement of [scoredStations] to
    [Array.prototype.sort].  ECMAScript fixes two things about its result
    for this comparator: it is a rearrangement in descending order of
    score, and it is stable, so entries of equal score keep the order
    they had.  [sorted_stably] is that specification; [sorted_somehow] is
    what it would be without stability. *)

Definition sorted_somehow (l full : list StationResult) : Prop :=
  Permutation full l /\ StronglySorted score_ge full.

Definition sorted_stably (l full : list StationResult) : Prop :=
  sorted_somehow l full /\
  forall q, filter (has_score q) full = filter (has_score q) l.

(** [l] is a list that a run of [calculateResults] from [s] may pass to
    [setResults]: the first 10 entries of some result of the sort. *)
Definition possible_results (s : AppState) (l : list StationResult) : Prop :=
  exists full, sorted_stably (scoredStations s) full /\ l = firstn 10 full.

(** The same with a sort that need not be stable. *)
Definition possible_results_unstable (s : AppState)
  (l : list StationResult) : Prop :=
  exists full, sorted_somehow (scoredStations s) full /\ l = firstn 10 full.

(** Three stations on a triangle: Y and Z get the same score from X and Z
    at [ratio = 50], [lambda = 0] (their total times are both 7). *)
Definition triangle_calls : list GraphCall :=
  [CallAddNode (st "X" 10); CallAddNode (st "Y" 20); CallAddNode (st "Z" 30);
   CallAddEdge "X" "Y" 3; CallAddEdge "Y" "Z" 4; CallAddEdge "X" "Z" 7].

Definition app_tie : AppState :=
  mkApp INPUT (build triangle_calls) (mkParams "X" "Z" 100 50 0) [].

(** ** The score as the binary64 number the code computes

    JavaScript numbers are binary64 floating-point numbers.  Distances are
    sums of whole minutes and rents and budgets are whole amounts, which
    binary64 holds exactly, but the weights and the score are quotients
    that it rounds.  The rational [score] above is the score in exact
    arithmetic; the definitions below compute lines 88 to 128 of
    [App.tsx] operation by operation in binary64, and give the number
    that the code stores in the [score] field. *)

From Stdlib Require Import Floats.

(** The binary64 number nearest to the integer [z]. *)
Definition b64_of_Z (z : Z) : float :=
  SF2Prim (binary_normalize prec emax z 0 false).

(** The binary64 number that stands for [q]: the numerator over the
    denominator, rounded once (exact for whole numbers below 2^53). *)
Definition b64_of (q : Q) : float :=
  (b64_of_Z (Qnum q) / b64_of_Z (Zpos (Qden q)))%float.

(** [Math.max(a, b)]: NaN if either is NaN, else the larger, with +0
    above -0. *)
Definition Math_max (a b : float) : float :=
  if (PrimFloat.is_nan a || PrimFloat.is_nan b)%bool then nan
  else if (a <? b)%float then b
  else if (b <? a)%float then a
  else if PrimFloat.is_zero a then (if PrimFloat.get_sign a then b else a)
  else a.

(** [Math.min(a, b)]: NaN if either is NaN, else the smaller, with -0
    below +0. *)
Definition Math_min (a b : float) : float :=
  if (PrimFloat.is_nan a || PrimFloat.is_nan b)%bool then nan
  else if (b <? a)%float then b
  else if (a <? b)%float then a
  else if PrimFloat.is_zero a then (if PrimFloat.get_sign a then a else b)
  else a.

(** Lines 88 to 98: the pair [(wA, wB)]. *)
Definition weights64 (ratio' : float) : float * float :=
  if (ratio' <? 50)%float then
    ((1 + (50 - ratio') / 25)%float,
     Math_max 0.5%float (1 - (50 - ratio') / 50)%float)
  else if (50 <? ratio')%float then
    (Math_max 0.5%float (1 - (ratio' - 50) / 50)%float,
     (1 + (ratio' - 50) / 25)%float)
  else (1%float, 1%float).

(** An entry of [scoredStations] with its numbers in binary64. *)
Record Result64 : Type := mkResult64 {
  station64 : Station;
  timeA64 : float;
  timeB64 : float;
  score64 : float
}.

(** Lines 103 to 130, the body of [stations.forEach]: [None] is the early
    [return]. *)
Definition score_station64 (distA' distB' : DistanceMap)
  (wA wB lambda' budget' : float) (station' : Station) : option Result64 :=
  match JsMap.get (id station') distA', JsMap.get (id station') distB' with
  | Some (Fin qa), Some (Fin qb) =>
      let timeA' := b64_of qa in
      let timeB' := b64_of qb in
      let scoreSum := (wA * timeA' + wB * timeB')%float in
      let scoreFair := Math_max (wA * timeA')%float (wB * timeB')%float in
      let weightedTimeScore :=
        (lambda' * scoreFair + (1 - lambda') * scoreSum)%float in
      let displayScore := (100 - (weightedTimeScore / 120) * 100)%float in
      let displayScore :=
        if (budget' <? b64_of (rent station'))%float
        then (displayScore - 15)%float
        else displayScore in
      Some (mkResult64 station' timeA' timeB'
              (Math_max 0%float (Math_min 100%float displayScore)))
  | _, _ => None
  end.

Definition push_scored64 (distA' distB' : DistanceMap)
  (wA wB lambda' budget' : float) (acc : list Result64)
  (station' : Station) : list Result64 :=
  match score_station64 distA' distB' wA wB lambda' budget' station' with
  | Some r => acc ++ [r]
  | None => acc
  end.

(** [scoredStations] just before it is sorted, in binary64. *)
Definition scoredStations64 (s : AppState) : list Result64 :=
  let (wA, wB) := weights64 (b64_of (ratio (params s))) in
  fold_left
    (push_scored64 (distA s) (distB s) wA wB
       (b64_of (lambda (params s))) (b64_of (budget (params s))))
    (stations s) [].

(** The score before the budget penalty, as the specification writes it,
    every operation being the binary64 one. *)
Definition unpenalized_score64 (wA wB lambda' timeA' timeB' : float)
  : float :=
  (100 - ((lambda' * Math_max (wA * timeA') (wB * timeB')
           + (1 - lambda') * (wA * timeA' + wB * timeB')) / 120) * 100)%float.

(** [Math.max(0, Math.min(100, x))] in binary64. *)
Definition clamp64 (x : float) : float :=
  Math_max 0%float (Math_min 100%float x).

(** The triangle of [app_tie], searched at [ratio = 40]. *)
Definition app_ratio40 : AppState :=
  mkApp INPUT (build triangle_calls) (mkParams "X" "Z" 25 40 0) [].

(** * Properties *)

(** ** The examples of the specification *)

Example dijkstra_line_X :
  dijkstra line_XYZ "X" = [("X", Fin 0); ("Y", Fin 3); ("Z", Fin 7)].
Proof. vm_compute. reflexivity. Qed.

Example dijkstra_line_Z :
  dijkstra line_XYZ "Z" = [("X", Fin 7); ("Y", Fin 4); ("Z", Fin 0)].
Proof. vm_compute. reflexivity. Qed.

(** With [ratio = 50], [lambda = 0] and a sufficient budget, the stations
    with [timeA + timeB = 10] rank above the one with 20, and among
    themselves in listing order. *)
Example ranking_fork :
  map (fun r => (id (station r), timeA r + timeB r, score r))
      (results (calculateResults app_fork))
  = [("A", 0 + 10, 11000 # 120); ("B", 10 + 0, 11000 # 120);
     ("P", 5 + 5, 11000 # 120); ("Q", 10 + 10, 10000 # 120)].
Proof. vm_compute. reflexivity. Qed.

(** ** Numbers *)

Lemma Qltb_true_iff (a b : Q) : Qltb a b = true <-> a < b.
Proof.
  unfold Qltb. rewrite Qlt_alt.
  destruct (a ?= b); split; congruence.
Qed.

Lemma Qltb_false_iff (a b : Q) : Qltb a b = false <-> b <= a.
Proof.
  split; intro H.
  - destruct (Qlt_le_dec a b) as [Hlt | Hle]; [| exact Hle].
    apply Qltb_true_iff in Hlt. congruence.
  - destruct (Qltb a b) eqn:E; [| reflexivity].
    apply Qltb_true_iff in E. lra.
Qed.

Lemma num_le_refl (a : num) : num_le a a.
Proof. destruct a; simpl; [lra | exact I]. Qed.

Lemma num_le_trans (a b c : num) : num_le a b -> num_le b c -> num_le a c.
Proof. destruct a, b, c; simpl; intros; try lra; try exact I; tauto. Qed.

Lemma num_le_Inf (a : num) : num_le a Inf.
Proof. destruct a; exact I. Qed.

Lemma num_ltb_true_le (a b : num) : num_ltb a b = true -> num_le a b.
Proof.
  destruct a, b; simpl; intro H; try exact I; try discriminate.
  apply Qltb_true_iff in H. lra.
Qed.

Lemma num_ltb_false_le (a b : num) : num_ltb a b = false -> num_le b a.
Proof.
  destruct a, b; simpl; intro H; try exact I; try discriminate.
  apply Qltb_false_iff in H. exact H.
Qed.

Lemma num_ltb_true_Fin (a b : num) : num_ltb a b = true -> exists q, a = Fin q.
Proof. destruct a; simpl; [eauto | discriminate]. Qed.

(** ** Maps and sets *)

Lemma get_set_same {V : Type} (k : string) (v : V) (m : JsMap.t V) :
  JsMap.get k (JsMap.set k v m) = Some v.
Proof.
  induction m as [| [k' v'] m IH]; simpl.
  - now rewrite String.eqb_refl.
  - destruct (String.eqb k k') eqn:E; simpl; rewrite E; auto.
Qed.

Lemma get_set_other {V : Type} (k k0 : string) (v : V) (m : JsMap.t V) :
  k0 <> k -> JsMap.get k0 (JsMap.set k v m) = JsMap.get k0 m.
Proof.
  intro Hne. induction m as [| [k' v'] m IH]; simpl.
  - destruct (String.eqb k0 k) eqn:E; [| reflexivity].
    apply String.eqb_eq in E. contradiction.
  - destruct (String.eqb k k') eqn:E; simpl.
    + apply String.eqb_eq in E. subst k'.
      destruct (String.eqb k0 k) eqn:E0; [| reflexivity].
      apply String.eqb_eq in E0. contradiction.
    + now rewrite IH.
Qed.

Lemma has_true_iff {V : Type} (k : string) (m : JsMap.t V) :
  JsMap.has k m = true <-> In k (JsMap.keys m).
Proof.
  unfold JsMap.has. induction m as [| [k' v'] m IH]; simpl.
  - split; [discriminate | tauto].
  - destruct (String.eqb k k') eqn:E.
    + apply String.eqb_eq in E. subst. split; auto.
    + rewrite IH. apply String.eqb_neq in E. split; [auto |].
      intros [H | H]; [congruence | exact H].
Qed.

Lemma has_false_get {V : Type} (k : string) (m : JsMap.t V) :
  JsMap.has k m = false <-> JsMap.get k m = None.
Proof.
  unfold JsMap.has. destruct (JsMap.get k m); split; congruence.
Qed.

Lemma set_has {V : Type} (k k0 : string) (v : V) (m : JsMap.t V) :
  JsMap.has k0 (JsMap.set k v m) = (String.eqb k0 k || JsMap.has k0 m)%bool.
Proof.
  unfold JsMap.has. destruct (String.eqb k0 k) eqn:E; simpl.
  - apply String.eqb_eq in E. subst. now rewrite get_set_same.
  - apply String.eqb_neq in E. now rewrite get_set_other.
Qed.

Lemma JsSet_has_iff (k : string) (m : JsSet.t) :
  JsSet.has k m = true <-> In k m.
Proof.
  unfold JsSet.has. rewrite existsb_exists. split.
  - intros [x [Hin Hx]]. apply String.eqb_eq in Hx. now subst.
  - intro H. exists k. split; [exact H | apply String.eqb_refl].
Qed.

Lemma In_delete (k x : string) (s : JsSet.t) :
  In x (JsSet.delete k s) <-> In x s /\ x <> k.
Proof.
  unfold JsSet.delete. rewrite filter_In.
  destruct (String.eqb k x) eqn:E; simpl.
  - apply String.eqb_eq in E. subst. split; [intros [_ H]; discriminate | tauto].
  - apply String.eqb_neq in E. split; intros [H1 H2]; split; auto; congruence.
Qed.

Lemma delete_smaller (k : string) (s : JsSet.t) :
  In k s -> (JsSet.size (JsSet.delete k s) < JsSet.size s)%nat.
Proof.
  unfold JsSet.size, JsSet.delete. induction s as [| x s IH]; simpl.
  - tauto.
  - intros [H | H].
    + subst. rewrite String.eqb_refl. simpl.
      pose proof (filter_length_le (fun k' => negb (String.eqb k k')) s). lia.
    + destruct (String.eqb k x); simpl; specialize (IH H); lia.
Qed.

(** ** The selection loop *)

Section Selection.

Variable distances : DistanceMap.

Lemma select_fold_lower (unvisited : JsSet.t) (acc : option string * num) :
  let r := fold_left (select_step distances) unvisited acc in
  num_le (snd r) (snd acc) /\
  forall y dy, In y unvisited -> JsMap.get y distances = Some dy ->
               num_le (snd r) dy.
Proof.
  revert acc. induction unvisited as [| x l IH]; intros acc; simpl.
  - split; [apply num_le_refl | tauto].
  - destruct (IH (select_step distances acc x)) as [Hle Hall].
    assert (Hstep : num_le (snd (select_step distances acc x)) (snd acc)).
    { unfold select_step. destruct (JsMap.get x distances) as [d |].
      - destruct (num_ltb d (snd acc)) eqn:E; simpl.
        + now apply num_ltb_true_le.
        + apply num_le_refl.
      - apply num_le_refl. }
    split.
    + eapply num_le_trans; eassumption.
    + intros y dy [Hy | Hy] Hget.
      * subst y. eapply num_le_trans; [exact Hle |].
        unfold select_step. rewrite Hget.
        destruct (num_ltb dy (snd acc)) eqn:E; simpl.
        -- apply num_le_refl.
        -- now apply num_ltb_false_le.
      * eapply Hall; eassumption.
Qed.

Lemma select_fold_pick (unvisited : JsSet.t) (acc : option string * num) :
  let r := fold_left (select_step distances) unvisited acc in
  r = acc \/
  exists c q, r = (Some c, Fin q) /\ In c unvisited /\
              JsMap.get c distances = Some (Fin q).
Proof.
  revert acc. induction unvisited as [| x l IH]; intros acc; simpl.
  - now left.
  - destruct (IH (select_step distances acc x)) as [Heq | [c [q [Hr [Hin Hget]]]]].
    + rewrite Heq. unfold select_step.
      destruct (JsMap.get x distances) as [d |] eqn:Hget; [| now left].
      destruct (num_ltb d (snd acc)) eqn:E; [| now left].
      destruct (num_ltb_true_Fin _ _ E) as [q Hq]. subst d.
      right. exists x, q. auto.
    + right. exists c, q. auto.
Qed.

Lemma select_min_lower (unvisited : JsSet.t) (y : string) (dy : num) :
  In y unvisited -> JsMap.get y distances = Some dy ->
  num_le (snd (select_min distances unvisited)) dy.
Proof.
  intros. unfold select_min.
  eapply (proj2 (select_fold_lower unvisited (None, Inf))); eassumption.
Qed.

Lemma select_min_some (unvisited : JsSet.t) (c : string) (m : num) :
  select_min distances unvisited = (Some c, m) ->
  In c unvisited /\ JsMap.get c distances = Some m /\ exists q, m = Fin q.
Proof.
  unfold select_min. intro H.
  destruct (select_fold_pick unvisited (None, Inf)) as [Heq | [c' [q [Hr [Hin Hget]]]]].
  - simpl in Heq. congruence.
  - simpl in Hr. rewrite H in Hr. inversion Hr. subst. eauto.
Qed.

Lemma select_min_none (unvisited : JsSet.t) (m : num) :
  select_min distances unvisited = (None, m) -> m = Inf.
Proof.
  unfold select_min. intro H.
  destruct (select_fold_pick unvisited (None, Inf)) as [Heq | [c' [q [Hr _]]]].
  - simpl in Heq. congruence.
  - simpl in Hr. congruence.
Qed.

End Selection.

(** ** The relaxation loop *)

Section Relaxation.

Variable unvisited : JsSet.t.
Variable minDistance : num.

Lemma relax_step_untouched (d : DistanceMap) (e : Edge) (k : string) :
  ~ In k unvisited ->
  JsMap.get k (relax_step unvisited minDistance d e) = JsMap.get k d.
Proof.
  intro Hk. unfold relax_step.
  destruct (JsSet.has (to e) unvisited) eqn:Hu; [| reflexivity].
  apply JsSet_has_iff in Hu.
  destruct (JsMap.get (to e) d) as [old |]; [| reflexivity].
  destruct (num_ltb _ old); [| reflexivity].
  apply get_set_other. intro Heq. subst k. contradiction.
Qed.

Lemma relax_step_mono (d : DistanceMap) (e : Edge) (k : string) (dk : num) :
  JsMap.get k d = Some dk ->
  exists dk', JsMap.get k (relax_step unvisited minDistance d e) = Some dk' /\
              num_le dk' dk /\
              (dk' = dk \/
               (to e = k /\ dk' = num_add minDistance (weight e))).
Proof.
  intro Hget. unfold relax_step.
  destruct (JsSet.has (to e) unvisited);
    [| exists dk; split; [exact Hget | split; [apply num_le_refl | now left]]].
  destruct (JsMap.get (to e) d) as [old |] eqn:Hold;
    [| exists dk; split; [exact Hget | split; [apply num_le_refl | now left]]].
  destruct (num_ltb _ old) eqn:Hlt;
    [| exists dk; split; [exact Hget | split; [apply num_le_refl | now left]]].
  destruct (string_dec k (to e)) as [Heq | Hne].
  - subst k. rewrite get_set_same. eexists. split; [reflexivity |].
    split; [| right; auto].
    rewrite Hold in Hget. inversion Hget. subst old.
    now apply num_ltb_true_le.
  - rewrite get_set_other by exact Hne.
    exists dk; split; [exact Hget | split; [apply num_le_refl | now left]].
Qed.

Lemma relax_step_done (d : DistanceMap) (e : Edge) (old : num) :
  In (to e) unvisited ->
  JsMap.get (to e) d = Some old ->
  exists dk', JsMap.get (to e) (relax_step unvisited minDistance d e) = Some dk' /\
              num_le dk' (num_add minDistance (weight e)).
Proof.
  intros Hin Hold. unfold relax_step.
  apply JsSet_has_iff in Hin. rewrite Hin, Hold.
  destruct (num_ltb _ old) eqn:Hlt.
  - rewrite get_set_same. eexists. split; [reflexivity | apply num_le_refl].
  - exists old. split; [exact Hold | now apply num_ltb_false_le].
Qed.

Lemma relax_all_untouched (es : list Edge) (d : DistanceMap) (k : string) :
  ~ In k unvisited ->
  JsMap.get k (relax_all unvisited minDistance es d) = JsMap.get k d.
Proof.
  intro Hk. unfold relax_all. revert d.
  induction es as [| e es IH]; intro d; simpl; [reflexivity |].
  rewrite IH. now apply relax_step_untouched.
Qed.

Lemma relax_all_mono (es : list Edge) (d : DistanceMap) (k : string) (dk : num) :
  JsMap.get k d = Some dk ->
  exists dk', JsMap.get k (relax_all unvisited minDistance es d) = Some dk' /\
              num_le dk' dk /\
              (dk' = dk \/
               exists e, In e es /\ to e = k /\
                         dk' = num_add minDistance (weight e)).
Proof.
  unfold relax_all. revert d dk.
  induction es as [| e es IH]; intros d dk Hget; simpl.
  - exists dk. split; [exact Hget | split; [apply num_le_refl | now left]].
  - destruct (relax_step_mono d e k dk Hget) as [d1 [H1 [Hle1 Hor1]]].
    destruct (IH _ _ H1) as [d2 [H2 [Hle2 Hor2]]].
    exists d2. split; [exact H2 |]. split.
    + eapply num_le_trans; eassumption.
    + destruct Hor2 as [Heq | [e' [Hin [Hto Hval]]]].
      * subst d2. destruct Hor1 as [Heq | [Hto Hval]]; [now left |].
        right. exists e. simpl. auto.
      * right. exists e'. simpl. auto.
Qed.

Lemma relax_all_done (es : list Edge) (d : DistanceMap) (e : Edge) (old : num) :
  In e es -> In (to e) unvisited ->
  JsMap.get (to e) d = Some old ->
  exists dk', JsMap.get (to e) (relax_all unvisited minDistance es d) = Some dk' /\
              num_le dk' (num_add minDistance (weight e)).
Proof.
  unfold relax_all. revert d old.
  induction es as [| e0 es IH]; intros d old Hin Hu Hget; simpl.
  - contradiction.
  - destruct Hin as [Heq | Hin].
    + subst e0.
      destruct (relax_step_done d e old Hu Hget) as [d1 [H1 Hle1]].
      destruct (relax_all_mono es _ _ _ H1) as [d2 [H2 [Hle2 _]]].
      exists d2. split; [exact H2 | eapply num_le_trans; eassumption].
    + destruct (relax_step_mono d e0 _ _ Hget) as [d1 [H1 _]].
      eapply IH; eassumption.
Qed.

End Relaxation.

(** ** The main loop *)

Section Loop.

Variable g : Graph.
Variable P : DistanceMap -> JsSet.t -> Prop.

Hypothesis P_step :
  forall distances unvisited c q,
    P distances unvisited ->
    select_min distances unvisited = (Some c, Fin q) ->
    P (relax_all (JsSet.delete c unvisited) (Fin q) (adjacency g c) distances)
      (JsSet.delete c unvisited).

(** The loop ends within [size unvisited + 1] rounds, keeps [P], and leaves
    nothing unvisited at a finite distance. *)
Lemma dijkstra_loop_rule (fuel : nat) :
  forall distances unvisited,
    (JsSet.size unvisited < fuel)%nat ->
    P distances unvisited ->
    exists distances' unvisited',
      dijkstra_loop fuel g distances unvisited = Some distances' /\
      P distances' unvisited' /\
      forall y dy, In y unvisited' ->
                   JsMap.get y distances' = Some dy -> dy = Inf.
Proof.
  induction fuel as [| fuel IH]; intros d u Hfuel HP; [lia |].
  simpl. destruct (0 <? JsSet.size u)%nat eqn:Hsz.
  - destruct (select_min d u) as [[c |] m] eqn:Hsel.
    + destruct m as [q |]; simpl.
      * destruct (select_min_some _ _ _ _ Hsel) as [Hin _].
        apply IH.
        -- pose proof (delete_smaller c u Hin). lia.
        -- now apply P_step.
      * exists d, u. split; [reflexivity |]. split; [exact HP |].
        intros y dy Hy Hget.
        pose proof (select_min_lower d u y dy Hy Hget) as Hle.
        rewrite Hsel in Hle. simpl in Hle. destruct dy; [contradiction | reflexivity].
    + exists d, u. split; [reflexivity |]. split; [exact HP |].
      intros y dy Hy Hget.
      pose proof (select_min_lower d u y dy Hy Hget) as Hle.
      rewrite Hsel in Hle. apply select_min_none in Hsel. subst m.
      simpl in Hle. destruct dy; [contradiction | reflexivity].
  - exists d, u. split; [reflexivity |]. split; [exact HP |].
    apply Nat.ltb_ge in Hsz. unfold JsSet.size in Hsz.
    destruct u; simpl in Hsz; [| lia]. intros y dy [].
Qed.

End Loop.

(** ** The state on entry to the loop *)

Lemma In_add (k x : string) (s : JsSet.t) :
  In x (JsSet.add k s) <-> In x s \/ x = k.
Proof.
  unfold JsSet.add. destruct (JsSet.has k s) eqn:E.
  - apply JsSet_has_iff in E. split; [auto |].
    intros [H | H]; [exact H | now subst].
  - rewrite in_app_iff. simpl. split; intros [H | H]; auto.
    + destruct H as [H | []]. auto.
Qed.

Lemma init_fold_get (l : JsMap.t Station) (acc : DistanceMap * JsSet.t)
  (k : string) :
  JsMap.get k (fst (fold_left init_step l acc)) =
  if JsMap.has k l then Some Inf else JsMap.get k (fst acc).
Proof.
  revert acc. induction l as [| [k0 s0] l IH]; intro acc; simpl.
  - reflexivity.
  - rewrite IH. unfold JsMap.has at 2. simpl.
    destruct (String.eqb k k0) eqn:E.
    + apply String.eqb_eq in E. subst k0. rewrite get_set_same.
      now destruct (JsMap.has k l).
    + apply String.eqb_neq in E. rewrite get_set_other by exact E.
      reflexivity.
Qed.

Lemma init_fold_unvisited (l : JsMap.t Station) (acc : DistanceMap * JsSet.t)
  (k : string) :
  In k (snd (fold_left init_step l acc)) <->
  In k (snd acc) \/ In k (JsMap.keys l).
Proof.
  revert acc. induction l as [| [k0 s0] l IH]; intro acc; simpl.
  - tauto.
  - rewrite IH. simpl. rewrite In_add. intuition.
Qed.

Lemma dijkstra_start_eq (g : Graph) (startId : string) :
  dijkstra_start g startId =
  (JsMap.set startId (Fin 0) (fst (init_all g)), snd (init_all g)).
Proof. unfold dijkstra_start. now destruct (init_all g). Qed.

Lemma start_get_source (g : Graph) (startId : string) :
  JsMap.get startId (fst (dijkstra_start g startId)) = Some (Fin 0).
Proof. rewrite dijkstra_start_eq. simpl. apply get_set_same. Qed.

Lemma start_get_other (g : Graph) (startId k : string) :
  k <> startId ->
  JsMap.get k (fst (dijkstra_start g startId)) =
  if JsMap.has k (nodes g) then Some Inf else None.
Proof.
  intro Hne. rewrite dijkstra_start_eq. simpl.
  rewrite get_set_other by exact Hne.
  unfold init_all. now rewrite init_fold_get.
Qed.

Lemma start_unvisited (g : Graph) (startId k : string) :
  In k (snd (dijkstra_start g startId)) <-> is_station g k.
Proof.
  rewrite dijkstra_start_eq. simpl. unfold init_all, is_station.
  rewrite init_fold_unvisited, has_true_iff. simpl. tauto.
Qed.

Lemma dijkstra_run_eq (g : Graph) (startId : string) :
  dijkstra_run g startId =
  dijkstra_loop (S (JsSet.size (snd (dijkstra_start g startId)))) g
    (fst (dijkstra_start g startId)) (snd (dijkstra_start g startId)).
Proof. unfold dijkstra_run. now destruct (dijkstra_start g startId). Qed.

(** An invariant of the loop that holds on entry holds of the returned map,
    together with the exit condition. *)
Lemma dijkstra_rule (g : Graph) (startId : string)
  (P : DistanceMap -> JsSet.t -> Prop) :
  (forall distances unvisited c q,
      P distances unvisited ->
      select_min distances unvisited = (Some c, Fin q) ->
      P (relax_all (JsSet.delete c unvisited) (Fin q) (adjacency g c) distances)
        (JsSet.delete c unvisited)) ->
  P (fst (dijkstra_start g startId)) (snd (dijkstra_start g startId)) ->
  exists unvisited',
    dijkstra_run g startId = Some (dijkstra g startId) /\
    P (dijkstra g startId) unvisited' /\
    forall y dy, In y unvisited' ->
                 JsMap.get y (dijkstra g startId) = Some dy -> dy = Inf.
Proof.
  intros Hstep Hinit.
  destruct (dijkstra_loop_rule g P Hstep _ _ _ (Nat.lt_succ_diag_r _) Hinit)
    as [d' [u' [Hrun [HP Hfin]]]].
  rewrite <- dijkstra_run_eq in Hrun.
  unfold dijkstra. rewrite Hrun. exists u'. auto.
Qed.

(** The loop never reaches its bound. *)
Lemma dijkstra_run_returns (g : Graph) (startId : string) :
  dijkstra_run g startId = Some (dijkstra g startId).
Proof.
  destruct (dijkstra_rule g startId (fun _ _ => True)) as [u [H _]]; auto.
Qed.

(** ** The source stays at distance 0 *)

Lemma source_inv_step (g : Graph) (startId : string)
  (d : DistanceMap) (u : JsSet.t) (c : string) (q : Q) :
  source_inv startId d u ->
  select_min d u = (Some c, Fin q) ->
  source_inv startId
    (relax_all (JsSet.delete c u) (Fin q) (adjacency g c) d)
    (JsSet.delete c u).
Proof.
  intros [Hs Hrest] Hsel.
  destruct (select_min_some _ _ _ _ Hsel) as [Hc [Hgetc _]].
  assert (Hout : ~ In startId (JsSet.delete c u)).
  { rewrite In_delete. intros [Hin Hne].
    destruct (string_dec c startId) as [Heq | Hcs]; [congruence |].
    rewrite (Hrest Hin c Hc Hcs) in Hgetc. discriminate. }
  split.
  - rewrite relax_all_untouched by exact Hout. exact Hs.
  - intro Hin. contradiction.
Qed.

Lemma source_inv_start (g : Graph) (startId : string) :
  source_inv startId (fst (dijkstra_start g startId))
    (snd (dijkstra_start g startId)).
Proof.
  split.
  - apply start_get_source.
  - intros _ y Hy Hne. rewrite start_get_other by exact Hne.
    apply start_unvisited in Hy. unfold is_station in Hy. now rewrite Hy.
Qed.

(** ** The triangle inequality *)

Section Triangle.

Variable g : Graph.
Hypothesis weights_ok : weights_nonneg g.

Lemma num_le_add_nonneg (a : num) (w : Q) : 0 <= w -> num_le a (num_add a w).
Proof. intro Hw. destruct a; simpl; [lra | exact I]. Qed.

Lemma settled_inv_step (d : DistanceMap) (u : JsSet.t) (c : string) (q : Q) :
  settled_inv g d u ->
  select_min d u = (Some c, Fin q) ->
  settled_inv g
    (relax_all (JsSet.delete c u) (Fin q) (adjacency g c) d)
    (JsSet.delete c u).
Proof.
  intros [Hkeys Hunv Hset Hrel] Hsel.
  destruct (select_min_some _ _ _ _ Hsel) as [Hc [Hgetc _]].
  assert (Hmin : forall y dy, In y u -> JsMap.get y d = Some dy ->
                              num_le (Fin q) dy).
  { intros y dy Hy Hget. pose proof (select_min_lower d u y dy Hy Hget) as H.
    now rewrite Hsel in H. }
  set (u' := JsSet.delete c u).
  set (d' := relax_all u' (Fin q) (adjacency g c) d).
  assert (Hc' : ~ In c u') by (unfold u'; rewrite In_delete; tauto).
  assert (Hgetc' : JsMap.get c d' = Some (Fin q)).
  { unfold d'. rewrite relax_all_untouched by exact Hc'. exact Hgetc. }
  (* a value of [d'] at an unvisited station is an old one or [q + w] *)
  assert (Hlow : forall y dy', In y u' -> JsMap.get y d' = Some dy' ->
                               num_le (Fin q) dy').
  { intros y dy' Hy Hget'. unfold u' in Hy. apply In_delete in Hy.
    destruct Hy as [Hy _].
    destruct (Hkeys y (Hunv y Hy)) as [dy Hget].
    destruct (relax_all_mono u' (Fin q) (adjacency g c) d y dy Hget)
      as [dy2 [Hget2 [_ Hor]]].
    fold d' in Hget2. rewrite Hget' in Hget2. inversion Hget2. subst dy2.
    destruct Hor as [Heq | [e [Hin [_ Hval]]]].
    - subst dy'. eapply Hmin; eassumption.
    - subst dy'. apply (num_le_add_nonneg (Fin q)). eapply weights_ok; eassumption. }
  (* an old visited station is below the selected one *)
  assert (Hold : forall x dx, is_station g x -> ~ In x u ->
                              JsMap.get x d = Some dx -> num_le dx (Fin q)).
  { intros x dx Hx Hxu Hget. eapply Hset; eassumption. }
  constructor.
  - intros k Hk. destruct (Hkeys k Hk) as [dk Hget].
    destruct (relax_all_mono u' (Fin q) (adjacency g c) d k dk Hget)
      as [dk' [Hget' _]].
    exists dk'. exact Hget'.
  - intros k Hk. unfold u' in Hk. apply In_delete in Hk. apply Hunv, Hk.
  - intros x y dx dy Hx Hxu Hy Hgx Hgy.
    pose proof (Hlow y dy Hy Hgy) as Hqy.
    destruct (string_dec x c) as [Heq | Hne].
    + subst x. rewrite Hgetc' in Hgx. inversion Hgx. subst dx. exact Hqy.
    + assert (Hxu0 : ~ In x u).
      { intro Hin. apply Hxu. unfold u'. rewrite In_delete. auto. }
      unfold d' in Hgx. rewrite relax_all_untouched in Hgx by exact Hxu.
      eapply num_le_trans; [apply (Hold x dx); assumption | exact Hqy].
  - intros x e dx dv Hx Hxu He Hv Hgx Hgv.
    destruct (string_dec x c) as [Heq | Hne].
    + subst x. rewrite Hgetc' in Hgx. inversion Hgx. subst dx.
      destruct (JsSet.has (to e) u') eqn:Hvu.
      * apply JsSet_has_iff in Hvu.
        assert (Hvu0 : In (to e) u) by (unfold u' in Hvu; apply In_delete in Hvu; tauto).
        destruct (Hkeys _ Hv) as [old Hgold].
        destruct (relax_all_done u' (Fin q) (adjacency g c) d e old He Hvu Hgold)
          as [dv' [Hgv' Hle]].
        fold d' in Hgv'. rewrite Hgv in Hgv'. inversion Hgv'. subst dv'.
        exact Hle.
      * assert (Hvu' : ~ In (to e) u').
        { intro Hin. apply JsSet_has_iff in Hin. congruence. }
        eapply num_le_trans;
          [| apply (num_le_add_nonneg (Fin q)); eapply weights_ok; eassumption].
        destruct (string_dec (to e) c) as [Hvc | Hvc].
        -- rewrite Hvc in Hgv. rewrite Hgetc' in Hgv. inversion Hgv.
           apply num_le_refl.
        -- assert (Hvu0 : ~ In (to e) u).
           { intro Hin. apply Hvu'. unfold u'. rewrite In_delete. auto. }
           unfold d' in Hgv. rewrite relax_all_untouched in Hgv by exact Hvu'.
           apply (Hold (to e) dv); assumption.
    + assert (Hxu0 : ~ In x u).
      { intro Hin. apply Hxu. unfold u'. rewrite In_delete. auto. }
      unfold d' in Hgx. rewrite relax_all_untouched in Hgx by exact Hxu.
      destruct (Hkeys _ Hv) as [old Hgold].
      destruct (relax_all_mono u' (Fin q) (adjacency g c) d _ _ Hgold)
        as [dv' [Hgv' [Hle _]]].
      fold d' in Hgv'. rewrite Hgv in Hgv'. inversion Hgv'. subst dv'.
      eapply num_le_trans; [exact Hle |].
      apply (Hrel x e dx old); assumption.
Qed.

Lemma settled_inv_start (startId : string) :
  settled_inv g (fst (dijkstra_start g startId))
    (snd (dijkstra_start g startId)).
Proof.
  constructor.
  - intros k Hk. destruct (string_dec k startId) as [Heq | Hne].
    + subst. rewrite start_get_source. eauto.
    + rewrite start_get_other by exact Hne. unfold is_station in Hk.
      rewrite Hk. eauto.
  - intros k Hk. now apply start_unvisited in Hk.
  - intros x y dx dy Hx Hxu. exfalso. apply Hxu. now apply start_unvisited.
  - intros x e dx dv Hx Hxu. exfalso. apply Hxu. now apply start_unvisited.
Qed.

(** Every adjacency entry between two stations is relaxed in the result. *)
Lemma dijkstra_entry_relaxed (startId u : string) (e : Edge) :
  is_station g u -> is_station g (to e) -> In e (adjacency g u) ->
  exists du dv,
    JsMap.get u (dijkstra g startId) = Some du /\
    JsMap.get (to e) (dijkstra g startId) = Some dv /\
    num_le dv (num_add du (weight e)).
Proof.
  intros Hu Hv He.
  destruct (dijkstra_rule g startId (settled_inv g) settled_inv_step
              (settled_inv_start startId))
    as [un [_ [[Hkeys Hunv Hset Hrel] Hfin]]].
  destruct (Hkeys u Hu) as [du Hgu]. destruct (Hkeys _ Hv) as [dv Hgv].
  exists du, dv. split; [exact Hgu |]. split; [exact Hgv |].
  destruct (JsSet.has u un) eqn:Hin.
  - apply JsSet_has_iff in Hin. rewrite (Hfin u du Hin Hgu). simpl.
    apply num_le_Inf.
  - apply (Hrel u e du dv); try assumption.
    intro H. apply JsSet_has_iff in H. congruence.
Qed.

End Triangle.

(** ** Graphs assembled by [addNode] and [addEdge] *)

Lemma push_at_get (k k0 : string) (e : Edge) (m : JsMap.t (list Edge)) :
  JsMap.get k (push_at k0 e m) =
  if String.eqb k k0 then option_map (fun l => l ++ [e]) (JsMap.get k m)
  else JsMap.get k m.
Proof.
  unfold push_at. destruct (String.eqb k k0) eqn:E.
  - apply String.eqb_eq in E. subst k0.
    destruct (JsMap.get k m) as [l |] eqn:Hget; simpl.
    + apply get_set_same.
    + exact Hget.
  - apply String.eqb_neq in E.
    destruct (JsMap.get k0 m); [| reflexivity].
    now apply get_set_other.
Qed.

Lemma push_at_has (k k0 : string) (e : Edge) (m : JsMap.t (list Edge)) :
  JsMap.has k (push_at k0 e m) = JsMap.has k m.
Proof.
  unfold JsMap.has. rewrite push_at_get.
  destruct (String.eqb k k0); [| reflexivity].
  now destruct (JsMap.get k m).
Qed.

Lemma addEdge_has_edges (a b : string) (w : Q) (g : Graph) (k : string) :
  JsMap.has k (edges (addEdge a b w g)) = JsMap.has k (edges g).
Proof. unfold addEdge. simpl. now rewrite !push_at_has. Qed.

(** The adjacency arrays after [addEdge]: an entry is appended for each
    endpoint that has an array. *)
Lemma adjacency_addEdge (a b : string) (w : Q) (g : Graph) (k : string) :
  adjacency (addEdge a b w g) k =
  adjacency g k
  ++ (if (String.eqb k a && JsMap.has a (edges g))%bool
      then [mkEdge b w] else [])
  ++ (if (String.eqb k b && JsMap.has b (edges g))%bool
      then [mkEdge a w] else []).
Proof.
  unfold adjacency, addEdge. simpl. rewrite !push_at_get.
  destruct (String.eqb k a) eqn:Ea, (String.eqb k b) eqn:Eb;
    try (apply String.eqb_eq in Ea; subst a);
    try (apply String.eqb_eq in Eb; subst b);
    unfold JsMap.has; destruct (JsMap.get k (edges g)); simpl;
    rewrite ?app_nil_r, <- ?app_assoc; reflexivity.
Qed.

Lemma adjacency_addNode (s : Station) (g : Graph) (k : string) :
  graph_ok g -> adjacency (addNode s g) k = adjacency g k.
Proof.
  intro Hok. unfold addNode.
  destruct (JsMap.has (id s) (nodes g)) eqn:Hhas; [reflexivity |].
  unfold adjacency. simpl.
  destruct (string_dec k (id s)) as [Heq | Hne].
  - subst k. rewrite get_set_same.
    rewrite <- Hok in Hhas. apply has_false_get in Hhas. now rewrite Hhas.
  - now rewrite get_set_other.
Qed.

Lemma addNode_ok (s : Station) (g : Graph) : graph_ok g -> graph_ok (addNode s g).
Proof.
  intros Hok k. unfold addNode.
  destruct (JsMap.has (id s) (nodes g)); [apply Hok |].
  simpl. rewrite !set_has. now rewrite Hok.
Qed.

Lemma addEdge_ok (a b : string) (w : Q) (g : Graph) :
  graph_ok g -> graph_ok (addEdge a b w g).
Proof. intros Hok k. rewrite addEdge_has_edges. apply Hok. Qed.

Lemma call_ok (g : Graph) (c : GraphCall) : graph_ok g -> graph_ok (call g c).
Proof. destruct c; simpl; [apply addNode_ok | apply addEdge_ok]. Qed.

Lemma fold_call_ok (cs : list GraphCall) (g : Graph) :
  graph_ok g -> graph_ok (fold_left call cs g).
Proof.
  revert g. induction cs as [| c cs IH]; intros g Hok; simpl; [exact Hok |].
  apply IH. now apply call_ok.
Qed.

Lemma build_ok (cs : list GraphCall) : graph_ok (build cs).
Proof. apply fold_call_ok. intro k. reflexivity. Qed.

(** Only a station has adjacency entries. *)
Lemma adjacency_station (g : Graph) (k : string) (e : Edge) :
  graph_ok g -> In e (adjacency g k) -> is_station g k.
Proof.
  intros Hok Hin. unfold is_station. rewrite <- Hok.
  unfold adjacency in Hin. unfold JsMap.has.
  destruct (JsMap.get k (edges g)); [reflexivity | contradiction].
Qed.

Lemma get_In {V : Type} (k : string) (v : V) (m : JsMap.t V) :
  JsMap.get k m = Some v -> In (k, v) m.
Proof.
  induction m as [| [k' v'] m IH]; simpl; [discriminate |].
  destruct (String.eqb k k') eqn:E.
  - apply String.eqb_eq in E. subst. intro H. inversion H. now left.
  - intro H. right. now apply IH.
Qed.

Lemma weights_nonnegb_sound (g : Graph) :
  weights_nonnegb g = true -> weights_nonneg g.
Proof.
  unfold weights_nonnegb, weights_nonneg, adjacency. intros H k e Hin.
  destruct (JsMap.get k (edges g)) as [l |] eqn:Hget; [| contradiction].
  apply get_In in Hget. rewrite forallb_forall in H.
  specialize (H _ Hget). simpl in H. rewrite forallb_forall in H.
  apply Qle_bool_iff. now apply H.
Qed.

(** ** Symmetry of the adjacency arrays *)

Lemma addNode_symmetric (s : Station) (g : Graph) :
  graph_ok g -> symmetric g -> symmetric (addNode s g).
Proof.
  intros Hok Hsym u v w. rewrite !adjacency_addNode by exact Hok. apply Hsym.
Qed.

Lemma addEdge_entries (a b : string) (w : Q) (g : Graph) :
  graph_ok g -> is_station g a -> is_station g b ->
  In (mkEdge b w) (adjacency (addEdge a b w g) a) /\
  In (mkEdge a w) (adjacency (addEdge a b w g) b).
Proof.
  intros Hok Ha Hb. unfold is_station in Ha, Hb.
  rewrite <- Hok in Ha, Hb.
  rewrite !adjacency_addEdge, Ha, Hb, !String.eqb_refl, !andb_true_r.
  split; apply in_or_app; right; apply in_or_app.
  - left. now left.
  - right. now left.
Qed.

Lemma addEdge_symmetric (a b : string) (w : Q) (g : Graph) :
  graph_ok g -> is_station g a -> is_station g b ->
  symmetric g -> symmetric (addEdge a b w g).
Proof.
  intros Hok Ha Hb Hsym u v w'.
  destruct (addEdge_entries a b w g Hok Ha Hb) as [Hab Hba].
  unfold is_station in Ha, Hb. rewrite <- Hok in Ha, Hb.
  rewrite (adjacency_addEdge a b w g u), Ha, Hb, !andb_true_r.
  rewrite !in_app_iff. intros [Hold | [Hnew | Hnew]].
  - rewrite adjacency_addEdge, in_app_iff. left. now apply Hsym.
  - destruct (String.eqb u a) eqn:E; [| contradiction].
    apply String.eqb_eq in E. destruct Hnew as [Heq | []].
    inversion Heq. subst. exact Hba.
  - destruct (String.eqb u b) eqn:E; [| contradiction].
    apply String.eqb_eq in E. destruct Hnew as [Heq | []].
    inversion Heq. subst. exact Hab.
Qed.

Lemma fold_call_symmetric (cs : list GraphCall) (g : Graph) :
  graph_ok g -> symmetric g -> endpoints_known g cs ->
  symmetric (fold_left call cs g).
Proof.
  revert g. induction cs as [| c cs IH]; intros g Hok Hsym Hknown; simpl.
  - exact Hsym.
  - destruct Hknown as [Hc Hrest]. apply IH; [now apply call_ok | | exact Hrest].
    destruct c as [s | a b w]; simpl.
    + now apply addNode_symmetric.
    + destruct Hc. now apply addEdge_symmetric.
Qed.

(** ** Claims about the graph store and the shortest distances *)

(** C1. For every graph assembled by [addNode]/[addEdge] whose weights are
    not negative, every source that is a station and every edge stored in
    both directions, [u -> (v, w)] and [v -> (u, w)], the map returned by
    [dijkstra] has a distance for [u] and for [v], and
    [dist v <= dist u + w] and [dist u <= dist v + w], with [Inf] for
    unreachable stations. *)
Theorem dijkstra_triangle_inequality
  (cs : list GraphCall) (s u v : string) (w : Q) :
  weights_nonneg (build cs) ->
  is_station (build cs) s ->
  In (mkEdge v w) (adjacency (build cs) u) ->
  In (mkEdge u w) (adjacency (build cs) v) ->
  exists du dv,
    JsMap.get u (dijkstra (build cs) s) = Some du /\
    JsMap.get v (dijkstra (build cs) s) = Some dv /\
    num_le dv (num_add du w) /\
    num_le du (num_add dv w).
Proof.
  intros Hw _ Huv Hvu.
  pose proof (build_ok cs) as Hok.
  pose proof (adjacency_station _ _ _ Hok Huv) as Hu.
  pose proof (adjacency_station _ _ _ Hok Hvu) as Hv.
  destruct (dijkstra_entry_relaxed (build cs) Hw s u (mkEdge v w) Hu Hv Huv)
    as [du [dv [Hgu [Hgv Hle]]]].
  destruct (dijkstra_entry_relaxed (build cs) Hw s v (mkEdge u w) Hv Hu Hvu)
    as [dv' [du' [Hgv' [Hgu' Hle']]]].
  simpl in *. rewrite Hgu in Hgu'. rewrite Hgv in Hgv'.
  inversion Hgu'. inversion Hgv'. subst du' dv'.
  exists du, dv. auto.
Qed.

Lemma dijkstra_triangle_inequality_witness :
  exists du dv,
    JsMap.get "Y" (dijkstra (build line_calls) "X") = Some du /\
    JsMap.get "Z" (dijkstra (build line_calls) "X") = Some dv /\
    num_le dv (num_add du 4) /\
    num_le du (num_add dv 4).
Proof.
  apply (dijkstra_triangle_inequality line_calls "X" "Y" "Z" 4).
  - apply weights_nonnegb_sound. vm_compute. reflexivity.
  - vm_compute. reflexivity.
  - vm_compute. right. left. reflexivity.
  - vm_compute. left. reflexivity.
Defined.

(** Without the condition on the weights the inequality can fail: the
    entry [Z -> (Y, -10)] below is not relaxed, because [Y] is settled at 1
    before [Z] drops to -9. *)
Lemma negative_weight_not_relaxed :
  dijkstra (build negative_calls) "X"
  = [("X", Fin 0); ("Y", Fin 1); ("Z", Fin (-9))] /\
  In (mkEdge "Y" (-10)) (adjacency (build negative_calls) "Z") /\
  ~ num_le (Fin 1) (num_add (Fin (-9)) (-10)).
Proof.
  split; [vm_compute; reflexivity |]. split.
  - vm_compute. right. left. reflexivity.
  - simpl. intro H. lra.
Qed.

(** C2, as stated, fails: with a source that is no station [dijkstra]
    returns a map. *)
Lemma dijkstra_unknown_source_returns :
  ~ is_station line_XYZ "Q" /\
  dijkstra_outcome line_XYZ "Q"
  = Returns [("X", Inf); ("Y", Inf); ("Z", Inf); ("Q", Fin 0)] /\
  dijkstra_outcome line_XYZ "Q" <> Throws NotFound.
Proof.
  split; [vm_compute; discriminate |].
  split; [vm_compute; reflexivity | discriminate].
Qed.

(** C2, amended. For every graph and every source id that is not a station,
    [dijkstra] raises nothing: it returns a map that gives 0 to the source
    id, [Inf] to every station, and has no other entry. *)
Theorem dijkstra_unknown_source (g : Graph) (s : string) :
  ~ is_station g s ->
  exists d,
    dijkstra_outcome g s = Returns d /\
    JsMap.get s d = Some (Fin 0) /\
    (forall k, is_station g k -> JsMap.get k d = Some Inf) /\
    (forall k, ~ is_station g k -> k <> s -> JsMap.get k d = None).
Proof.
  intro Hs. exists (dijkstra g s). split; [reflexivity |].
  destruct (dijkstra_rule g s (start_inv g s)) as [u' [_ [[Hd _] _]]].
  - intros d u c q [Hd Hu] Hsel. exfalso. subst d u.
    destruct (select_min_some _ _ _ _ Hsel) as [Hc [Hget _]].
    apply start_unvisited in Hc.
    assert (Hne : c <> s) by (intro; subst; contradiction).
    rewrite start_get_other in Hget by exact Hne.
    unfold is_station in Hc. rewrite Hc in Hget. discriminate.
  - split; reflexivity.
  - rewrite Hd. split; [apply start_get_source |]. split.
    + intros k Hk.
      assert (Hne : k <> s) by (intro; subst; contradiction).
      rewrite start_get_other by exact Hne.
      unfold is_station in Hk. now rewrite Hk.
    + intros k Hk Hne. rewrite start_get_other by exact Hne.
      unfold is_station in Hk. now destruct (JsMap.has k (nodes g)).
Qed.

Lemma dijkstra_unknown_source_witness :
  exists d,
    dijkstra_outcome line_XYZ "Q" = Returns d /\
    JsMap.get "Q" d = Some (Fin 0) /\
    (forall k, is_station line_XYZ k -> JsMap.get k d = Some Inf) /\
    (forall k, ~ is_station line_XYZ k -> k <> "Q" -> JsMap.get k d = None).
Proof.
  apply (dijkstra_unknown_source line_XYZ "Q").
  vm_compute. discriminate.
Defined.

(** C3, as stated, fails: [addEdge] towards an id that is no station
    returns a graph, with the entry stored on the side of the station. *)
Lemma addEdge_unknown_endpoint_returns :
  ~ is_station (build [CallAddNode (st "X" 10)]) "Q" /\
  addEdge_outcome "X" "Q" 3 (build [CallAddNode (st "X" 10)])
  = Returns (mkGraph [("X", st "X" 10)] [("X", [mkEdge "Q" 3])]) /\
  addEdge_outcome "X" "Q" 3 (build [CallAddNode (st "X" 10)])
  <> Throws UnknownStation.
Proof.
  split; [vm_compute; discriminate |].
  split; [vm_compute; reflexivity | discriminate].
Qed.

(** C3, amended. On every assembled graph, [addEdge(a, b, weight)] with an
    endpoint that is no station raises nothing: it returns a graph with the
    same stations in which no adjacency array exists for an id that is no
    station, the array of an endpoint that is a station has gained its
    entry, and every other array is unchanged. *)
Theorem addEdge_unknown_endpoint
  (cs : list GraphCall) (a b : string) (w : Q) :
  ~ is_station (build cs) a \/ ~ is_station (build cs) b ->
  exists g',
    addEdge_outcome a b w (build cs) = Returns g' /\
    nodes g' = nodes (build cs) /\
    (forall k, ~ is_station (build cs) k ->
               JsMap.has k (edges g') = false /\ adjacency g' k = []) /\
    (is_station (build cs) a ->
     adjacency g' a = adjacency (build cs) a ++ [mkEdge b w]) /\
    (is_station (build cs) b ->
     adjacency g' b = adjacency (build cs) b ++ [mkEdge a w]) /\
    (forall k, k <> a -> k <> b -> adjacency g' k = adjacency (build cs) k).
Proof.
  intro Hunknown. exists (addEdge a b w (build cs)).
  pose proof (build_ok cs) as Hok.
  assert (Hno : forall k, ~ is_station (build cs) k ->
                          JsMap.has k (edges (build cs)) = false).
  { intros k Hk. rewrite Hok. unfold is_station in Hk.
    now destruct (JsMap.has k (nodes (build cs))). }
  assert (Hnil : forall k, ~ is_station (build cs) k ->
                           adjacency (build cs) k = []).
  { intros k Hk. unfold adjacency.
    specialize (Hno k Hk). apply has_false_get in Hno. now rewrite Hno. }
  split; [reflexivity |]. split; [reflexivity |].
  split; [| split; [| split]].
  - intros k Hk. split.
    + rewrite addEdge_has_edges. now apply Hno.
    + rewrite adjacency_addEdge, (Hnil k Hk). simpl.
      destruct (String.eqb k a) eqn:Ea.
      * apply String.eqb_eq in Ea. subst a. rewrite (Hno k Hk). simpl.
        destruct (String.eqb k b) eqn:Eb; [| reflexivity].
        apply String.eqb_eq in Eb. subst b. now rewrite (Hno k Hk).
      * simpl. destruct (String.eqb k b) eqn:Eb; [| reflexivity].
        apply String.eqb_eq in Eb. subst b. now rewrite (Hno k Hk).
  - intro Ha. destruct Hunknown as [Hna | Hnb]; [contradiction |].
    rewrite adjacency_addEdge, String.eqb_refl.
    assert (Hhas : JsMap.has a (edges (build cs)) = true)
      by (rewrite Hok; exact Ha).
    rewrite Hhas, (Hno b Hnb), andb_false_r. simpl. reflexivity.
  - intro Hb. destruct Hunknown as [Hna | Hnb]; [| contradiction].
    rewrite adjacency_addEdge, String.eqb_refl.
    assert (Hhas : JsMap.has b (edges (build cs)) = true)
      by (rewrite Hok; exact Hb).
    rewrite Hhas, (Hno a Hna), andb_false_r. simpl. reflexivity.
  - intros k Hka Hkb. rewrite adjacency_addEdge.
    apply String.eqb_neq in Hka, Hkb. rewrite Hka, Hkb. simpl.
    apply app_nil_r.
Qed.

Lemma addEdge_unknown_endpoint_witness :
  exists g',
    addEdge_outcome "X" "Q" 3 (build line_calls) = Returns g' /\
    nodes g' = nodes (build line_calls) /\
    (forall k, ~ is_station (build line_calls) k ->
               JsMap.has k (edges g') = false /\ adjacency g' k = []) /\
    (is_station (build line_calls) "X" ->
     adjacency g' "X" = adjacency (build line_calls) "X" ++ [mkEdge "Q" 3]) /\
    (is_station (build line_calls) "Q" ->
     adjacency g' "Q" = adjacency (build line_calls) "Q" ++ [mkEdge "X" 3]) /\
    (forall k, k <> "X" -> k <> "Q" ->
               adjacency g' k = adjacency (build line_calls) k).
Proof.
  apply (addEdge_unknown_endpoint line_calls "X" "Q" 3).
  right. vm_compute. discriminate.
Defined.

(** C4, as stated, fails: after [addEdge] towards an id that is no station
    the entry [X -> (Q, 3)] is stored and its mirror entry is not. *)
Lemma addEdge_unknown_breaks_symmetry :
  In (mkEdge "Q" 3)
     (adjacency (build dangling_calls) "X") /\
  ~ In (mkEdge "X" 3)
       (adjacency (build dangling_calls) "Q") /\
  ~ symmetric (build dangling_calls).
Proof.
  assert (H1 : In (mkEdge "Q" 3)
     (adjacency (build dangling_calls) "X"))
    by (vm_compute; left; reflexivity).
  assert (H2 : ~ In (mkEdge "X" 3)
     (adjacency (build dangling_calls) "Q"))
    by (vm_compute; tauto).
  split; [exact H1 |]. split; [exact H2 |].
  intro Hsym. apply H2. apply Hsym. exact H1.
Qed.

(** C4, amended. For every sequence of [addNode]/[addEdge] calls in which
    each [addEdge] names two stations already added, the assembled graph is
    symmetric: every adjacency entry [u -> (v, w)] has its mirror entry
    [v -> (u, w)].  And [addEdge(a, b, w)] on two of its stations leaves
    [(b, w)] in the array of [a], [(a, w)] in the array of [b], and a
    symmetric graph. *)
Theorem adjacency_symmetric (cs : list GraphCall) :
  endpoints_known newGraph cs ->
  symmetric (build cs) /\
  forall a b w,
    is_station (build cs) a -> is_station (build cs) b ->
    In (mkEdge b w) (adjacency (addEdge a b w (build cs)) a) /\
    In (mkEdge a w) (adjacency (addEdge a b w (build cs)) b) /\
    symmetric (addEdge a b w (build cs)).
Proof.
  intro Hknown.
  assert (Hok0 : graph_ok newGraph) by (intro k; reflexivity).
  assert (Hsym : symmetric (build cs)).
  { apply fold_call_symmetric; [exact Hok0 | | exact Hknown].
    intros u v w Hin. unfold adjacency in Hin. simpl in Hin. contradiction. }
  split; [exact Hsym |].
  intros a b w Ha Hb. pose proof (build_ok cs) as Hok.
  destruct (addEdge_entries a b w _ Hok Ha Hb) as [H1 H2].
  split; [exact H1 |]. split; [exact H2 |].
  now apply addEdge_symmetric.
Qed.

Lemma adjacency_symmetric_witness :
  symmetric (build line_calls) /\
  forall a b w,
    is_station (build line_calls) a -> is_station (build line_calls) b ->
    In (mkEdge b w) (adjacency (addEdge a b w (build line_calls)) a) /\
    In (mkEdge a w) (adjacency (addEdge a b w (build line_calls)) b) /\
    symmetric (addEdge a b w (build line_calls)).
Proof.
  apply (adjacency_symmetric line_calls).
  vm_compute. tauto.
Defined.

(** C5. For every graph and every source id, the map returned by [dijkstra]
    gives 0 to the source. *)
Theorem dijkstra_source_zero (g : Graph) (s : string) :
  JsMap.get s (dijkstra g s) = Some (Fin 0).
Proof.
  destruct (dijkstra_rule g s (source_inv s)) as [u' [_ [[H _] _]]].
  - intros d u c q. apply source_inv_step.
  - apply source_inv_start.
  - exact H.
Qed.

(** ** The ranking computation *)

Lemma push_scored_fold (dA dB : DistanceMap) (wA wB la bu : Q)
  (l : list Station) (acc : list StationResult) :
  fold_left (push_scored dA dB wA wB la bu) l acc =
  acc ++ flat_map (fun x => opt_list (score_station dA dB wA wB la bu x)) l.
Proof.
  revert acc. induction l as [| x l IH]; intro acc; simpl.
  - now rewrite app_nil_r.
  - rewrite IH. unfold push_scored.
    destruct (score_station dA dB wA wB la bu x); simpl.
    + now rewrite <- app_assoc.
    + reflexivity.
Qed.

Lemma scoredStations_eq (s : AppState) :
  scoredStations s = flat_map (fun x => opt_list (score_of s x)) (stations s).
Proof.
  unfold scoredStations, score_of.
  destruct (weights (ratio (params s))) as [wA wB]. simpl.
  now rewrite push_scored_fold.
Qed.

Lemma In_scoredStations (s : AppState) (r : StationResult) :
  In r (scoredStations s) <->
  exists x, In x (stations s) /\ score_of s x = Some r.
Proof.
  rewrite scoredStations_eq, in_flat_map. split.
  - intros [x [Hx Hr]]. exists x. split; [exact Hx |].
    destruct (score_of s x); simpl in Hr; [| contradiction].
    destruct Hr as [Hr | []]. now subst.
  - intros [x [Hx Hr]]. exists x. split; [exact Hx |].
    rewrite Hr. now left.
Qed.

Lemma score_station_some (dA dB : DistanceMap) (wA wB la bu : Q)
  (x : Station) (r : StationResult) :
  score_station dA dB wA wB la bu x = Some r ->
  station r = x /\
  JsMap.get (id x) dA = Some (Fin (timeA r)) /\
  JsMap.get (id x) dB = Some (Fin (timeB r)) /\
  score r =
    clamp_0_100
      (if Qltb bu (rent x)
       then unpenalized_score wA wB la (timeA r) (timeB r) - 15
       else unpenalized_score wA wB la (timeA r) (timeB r)) /\
  aiReason r = generateMockAIReasons (name x) (timeA r) (timeB r).
Proof.
  unfold score_station.
  destruct (JsMap.get (id x) dA) as [[ta |] |]; try discriminate.
  destruct (JsMap.get (id x) dB) as [[tb |] |]; try discriminate.
  intro H. inversion H. subst r. clear H. simpl.
  unfold clamp_0_100, unpenalized_score.
  destruct (Qltb bu (rent x)); auto.
Qed.

Lemma score_station_finite (dA dB : DistanceMap) (wA wB la bu : Q)
  (x : Station) :
  (exists r, score_station dA dB wA wB la bu x = Some r) <->
  finite_at dA (id x) /\ finite_at dB (id x).
Proof.
  unfold finite_at. split.
  - intros [r Hr]. apply score_station_some in Hr.
    destruct Hr as [_ [HA [HB _]]]. eauto.
  - intros [[qa HA] [qb HB]]. unfold score_station. rewrite HA, HB. eauto.
Qed.

(** ** The stable sort *)

Section Sorting.

Context {A : Type}.
Variable cmp : A -> A -> Q.

Lemma insert_by_perm (x : A) (l : list A) :
  Permutation (insert_by cmp x l) (x :: l).
Proof.
  induction l as [| y l IH]; simpl; [reflexivity |].
  destruct (Qltb 0 (cmp x y)); [| reflexivity].
  rewrite IH. apply perm_swap.
Qed.

Lemma sort_by_perm (l : list A) : Permutation (sort_by cmp l) l.
Proof.
  induction l as [| x l IH]; simpl; [reflexivity |].
  rewrite insert_by_perm. now constructor.
Qed.

(** Elements of one class are never exchanged. *)
Lemma insert_by_filter (p : A -> bool) (x : A) (l : list A) :
  (forall a b, p a = true -> p b = true -> Qltb 0 (cmp a b) = false) ->
  filter p (insert_by cmp x l) = filter p (x :: l).
Proof.
  intro Hp. induction l as [| y l IH]; simpl; [reflexivity |].
  destruct (Qltb 0 (cmp x y)) eqn:E; [| reflexivity].
  simpl. rewrite IH. simpl.
  destruct (p x) eqn:Px, (p y) eqn:Py; try reflexivity.
  rewrite (Hp x y Px Py) in E. discriminate.
Qed.

Lemma sort_by_filter (p : A -> bool) (l : list A) :
  (forall a b, p a = true -> p b = true -> Qltb 0 (cmp a b) = false) ->
  filter p (sort_by cmp l) = filter p l.
Proof.
  intro Hp. induction l as [| x l IH]; simpl; [reflexivity |].
  rewrite insert_by_filter by exact Hp. simpl. now rewrite IH.
Qed.

End Sorting.

Lemma score_ge_trans (a b c : StationResult) :
  score_ge a b -> score_ge b c -> score_ge a c.
Proof. unfold score_ge. intros. lra. Qed.

Lemma insert_by_score_hd (y x : StationResult) (l : list StationResult) :
  HdRel score_ge y l -> score_ge y x ->
  HdRel score_ge y (insert_by by_score_desc x l).
Proof.
  intros Hhd Hyx. destruct l as [| z l]; simpl.
  - now constructor.
  - destruct (Qltb 0 (by_score_desc x z)).
    + constructor. now inversion Hhd.
    + now constructor.
Qed.

Lemma insert_by_score_sorted (x : StationResult) (l : list StationResult) :
  Sorted score_ge l -> Sorted score_ge (insert_by by_score_desc x l).
Proof.
  induction l as [| y l IH]; intro Hs; simpl.
  - repeat constructor.
  - inversion Hs as [| ? ? Hl Hhd]. subst.
    destruct (Qltb 0 (by_score_desc x y)) eqn:E.
    + apply Qltb_true_iff in E. unfold by_score_desc in E.
      constructor; [now apply IH |].
      apply insert_by_score_hd; [exact Hhd |]. unfold score_ge. lra.
    + apply Qltb_false_iff in E. unfold by_score_desc in E.
      constructor; [exact Hs |]. constructor. unfold score_ge. lra.
Qed.

Lemma sort_by_score_sorted (l : list StationResult) :
  StronglySorted score_ge (sort_by by_score_desc l).
Proof.
  apply Sorted_StronglySorted.
  - intros a b c. apply score_ge_trans.
  - induction l as [| x l IH]; simpl; [constructor |].
    now apply insert_by_score_sorted.
Qed.

Lemma has_score_same_class (q : Q) (a b : StationResult) :
  has_score q a = true -> has_score q b = true ->
  Qltb 0 (by_score_desc a b) = false.
Proof.
  unfold has_score, by_score_desc. intros Ha Hb.
  apply Qeq_bool_iff in Ha, Hb. apply Qltb_false_iff. lra.
Qed.

(** A list in descending score is determined by its classes of equal score:
    every stable sort by this comparator returns the same list. *)
Lemma sorted_stable_unique (l1 l2 : list StationResult) :
  StronglySorted score_ge l1 -> StronglySorted score_ge l2 ->
  (forall q, filter (has_score q) l1 = filter (has_score q) l2) ->
  l1 = l2.
Proof.
  assert (Hself : forall r, has_score (score r) r = true).
  { intro r. unfold has_score. apply Qeq_bool_iff. reflexivity. }
  revert l2. induction l1 as [| a t1 IH]; intros [| b t2] H1 H2 Hf.
  - reflexivity.
  - specialize (Hf (score b)). simpl in Hf. rewrite Hself in Hf. discriminate.
  - specialize (Hf (score a)). simpl in Hf. rewrite Hself in Hf. discriminate.
  - apply StronglySorted_inv in H1. destruct H1 as [H1 Ha].
    apply StronglySorted_inv in H2. destruct H2 as [H2 Hb].
    rewrite Forall_forall in Ha, Hb.
    assert (Hba : score a <= score b).
    { assert (Hin : In a (filter (has_score (score a)) (b :: t2))).
      { rewrite <- Hf. simpl. rewrite Hself. now left. }
      apply filter_In in Hin. destruct Hin as [[Heq | Hin] _].
      - subst. lra.
      - apply (Hb a Hin). }
    assert (Hab : score b <= score a).
    { assert (Hin : In b (filter (has_score (score b)) (a :: t1))).
      { rewrite Hf. simpl. rewrite Hself. now left. }
      apply filter_In in Hin. destruct Hin as [[Heq | Hin] _].
      - subst. lra.
      - apply (Ha b Hin). }
    assert (Heq : a = b).
    { pose proof (Hf (score a)) as Hq. simpl in Hq. rewrite Hself in Hq.
      assert (Hb' : has_score (score a) b = true).
      { unfold has_score. apply Qeq_bool_iff. lra. }
      rewrite Hb' in Hq. now inversion Hq. }
    subst b. f_equal. apply IH; [exact H1 | exact H2 |].
    intro q. specialize (Hf q). simpl in Hf.
    destruct (has_score q a); [now inversion Hf | exact Hf].
Qed.

Lemma sort_by_score_unique (l l' : list StationResult) :
  StronglySorted score_ge l' ->
  (forall q, filter (has_score q) l' = filter (has_score q) l) ->
  l' = sort_by by_score_desc l.
Proof.
  intros Hs Hf. apply sorted_stable_unique.
  - exact Hs.
  - apply sort_by_score_sorted.
  - intro q. rewrite Hf. symmetry.
    apply sort_by_filter. apply has_score_same_class.
Qed.

Lemma scored_class_stations (s : AppState) (p : StationResult -> bool)
  (l : list Station) :
  map station (filter p (flat_map (fun x => opt_list (score_of s x)) l)) =
  filter (fun x => match score_of s x with Some r => p r | None => false end) l.
Proof.
  induction l as [| x l IH]; simpl; [reflexivity |].
  rewrite filter_app, map_app, IH.
  destruct (score_of s x) as [r |] eqn:Hr; simpl; [| reflexivity].
  destruct (p r); simpl; [| reflexivity].
  apply score_station_some in Hr. destruct Hr as [Hst _]. now rewrite Hst.
Qed.

Lemma In_firstn {A : Type} (n : nat) (l : list A) (x : A) :
  In x (firstn n l) -> In x l.
Proof.
  revert l. induction n as [| n IH]; intros [| y l]; simpl; try tauto.
  intros [H | H]; auto.
Qed.

Lemma calculateResults_results (s : AppState) :
  results (calculateResults s) =
  firstn 10 (sort_by by_score_desc (scoredStations s)).
Proof. reflexivity. Qed.

Lemma results_scored (s : AppState) (r : StationResult) :
  In r (results (calculateResults s)) -> In r (scoredStations s).
Proof.
  rewrite calculateResults_results. intro H. apply In_firstn in H.
  eapply Permutation_in; [apply sort_by_perm | exact H].
Qed.

(** ** Claims about the ranking computation *)

Lemma score_of_finite (s : AppState) (x : Station) :
  (exists r, score_of s x = Some r) <->
  finite_at (distA s) (id x) /\ finite_at (distB s) (id x).
Proof. apply score_station_finite. Qed.

Lemma score_of_station (s : AppState) (x : Station) (r : StationResult) :
  score_of s x = Some r -> station r = x.
Proof. intro H. now apply score_station_some in H. Qed.

(** C6. The ranking computation scores exactly the stations whose distances
    from both workplaces are finite, and a station whose distance from
    [workplaceA] or from [workplaceB] is [Inf] or absent never appears in
    the returned list. *)
Theorem scored_iff_both_finite (s : AppState) :
  (forall x, In x (stations s) ->
     ((exists r, In r (scoredStations s) /\ station r = x) <->
      (finite_at (distA s) (id x) /\ finite_at (distB s) (id x)))) /\
  (forall r, In r (scoredStations s) -> In (station r) (stations s)) /\
  (forall k, ~ (finite_at (distA s) k /\ finite_at (distB s) k) ->
     forall r, In r (results (calculateResults s)) -> id (station r) <> k).
Proof.
  split; [| split].
  - intros x Hx. rewrite <- score_of_finite. split.
    + intros [r [Hr Hst]]. apply In_scoredStations in Hr.
      destruct Hr as [y [Hy Hsc]].
      rewrite <- Hst, (score_of_station _ _ _ Hsc). eauto.
    + intros [r Hr]. exists r. split.
      * apply In_scoredStations. eauto.
      * now apply score_of_station in Hr.
  - intros r Hr. apply In_scoredStations in Hr. destruct Hr as [x [Hx Hsc]].
    now rewrite (score_of_station _ _ _ Hsc).
  - intros k Hk r Hr Hid. apply Hk. apply results_scored in Hr.
    apply In_scoredStations in Hr. destruct Hr as [x [Hx Hsc]].
    subst k. rewrite (score_of_station _ _ _ Hsc).
    apply score_of_finite. eauto.
Qed.







(** The three entries of that search as the code computes them: Z, whose
    rent 30 exceeds the budget 25, is 15 below its unpenalized
    91.83333333333334. *)
Example scores64_ratio40 :
  map (fun e => (id (station64 e), timeA64 e, timeB64 e, score64 e))
      (scoredStations64 app_ratio40)
  = [("X", 0%float, 7%float, 0x1.7d55555555555p+6%float);
     ("Y", 3%float, 4%float, 0x1.7755555555555p+6%float);
     ("Z", 7%float, 0%float, 0x1.3355555555556p+6%float)].
Proof. vm_compute. reflexivity. Qed.

(** Rounding can separate two scores that are equal in exact arithmetic:
    at [ratio = 40], [lambda = 0] the times (3, 7) and (7, 0) both give
    551/6, and in binary64 91.83333333333333 and 91.83333333333334. *)
Example rounding_separates_a_tie :
  unpenalized_score (fst (weights 40)) (snd (weights 40)) 0 3 7
  == unpenalized_score (fst (weights 40)) (snd (weights 40)) 0 7 0 /\
  clamp64 (unpenalized_score64 (fst (weights64 40)) (snd (weights64 40))
             0 3 7)
  = 0x1.6f55555555555p+6%float /\
  clamp64 (unpenalized_score64 (fst (weights64 40)) (snd (weights64 40))
             0 7 0)
  = 0x1.6f55555555556p+6%float.
Proof.
  split; [vm_compute; reflexivity |].
  split; vm_compute; reflexivity.
Qed.

(** C8. The returned list is the first 10 entries (all of them when there
    are fewer) of the scored entries arranged by descending score, entries
    of equal score standing in the order of the station listing. *)
Theorem results_sorted_top10 (s : AppState) :
  exists full,
    results (calculateResults s) = firstn 10 full /\
    Permutation full (scoredStations s) /\
    StronglySorted (fun a b => score b <= score a) full /\
    (forall q,
        map station (filter (has_score q) full) =
        filter (fun x => match score_of s x with
                         | Some r => has_score q r
                         | None => false
                         end) (stations s)) /\
    List.length (results (calculateResults s))
    = Nat.min 10 (List.length (scoredStations s)).
Proof.
  exists (sort_by by_score_desc (scoredStations s)).
  split; [reflexivity |].
  split; [apply sort_by_perm |].
  split; [apply sort_by_score_sorted |].
  split.
  - intro q. rewrite sort_by_filter by apply has_score_same_class.
    rewrite scoredStations_eq. apply scored_class_stations.
  - rewrite calculateResults_results, length_firstn.
    now rewrite (Permutation_length (sort_by_perm by_score_desc _)).
Qed.

Lemma calculateResults_possible (s : AppState) :
  possible_results s (results (calculateResults s)).
Proof.
  exists (sort_by by_score_desc (scoredStations s)).
  split; [| apply calculateResults_results].
  split; [split |].
  - apply sort_by_perm.
  - apply sort_by_score_sorted.
  - intro q. apply sort_by_filter. apply has_score_same_class.
Qed.

(** Without stability the sort leaves a choice: at a tie two different
    lists are possible results. *)
Lemma unstable_sort_ambiguous :
  exists l1 l2,
    possible_results_unstable app_tie l1 /\
    possible_results_unstable app_tie l2 /\
    map (fun r => id (station r)) l1 = ["X"; "Y"; "Z"] /\
    map (fun r => id (station r)) l2 = ["X"; "Z"; "Y"].
Proof.
  set (rx := mkResult (st "X" 10) 0 7 (11300 # 120) (FavoursA "X")).
  set (ry := mkResult (st "Y" 20) 3 4 (11300 # 120) (Balanced "Y")).
  set (rz := mkResult (st "Z" 30) 7 0 (11300 # 120) (FavoursB "Z")).
  assert (Hsc : scoredStations app_tie = [rx; ry; rz])
    by (vm_compute; reflexivity).
  assert (Hge : forall a b, In a [rx; ry; rz] -> In b [rx; ry; rz] ->
                            score_ge a b).
  { intros a b Ha Hb. unfold score_ge. simpl in Ha, Hb.
    destruct Ha as [Ha | [Ha | [Ha | []]]];
      destruct Hb as [Hb | [Hb | [Hb | []]]]; subst; simpl; lra. }
  exists [rx; ry; rz], [rx; rz; ry].
  split; [| split; [| split; reflexivity]].
  - exists [rx; ry; rz]. split; [| reflexivity]. rewrite Hsc. split.
    + reflexivity.
    + repeat constructor; apply Hge; simpl; tauto.
  - exists [rx; rz; ry]. split; [| reflexivity]. rewrite Hsc. split.
    + apply perm_skip. apply perm_swap.
    + repeat constructor; apply Hge; simpl; tauto.
Qed.

(** C9. The query is deterministic.  The only step of [calculateResults]
    whose result the code does not compute itself is the built-in sort;
    whatever list the sort returns within its specification (descending
    order, stable), two runs on states with the same graph and the same
    [workplaceA], [workplaceB], [ratio], [lambda] and [budget] leave the
    same ordered list, namely the one [calculateResults] computes, and
    such a run exists.  Nothing else enters: [calculateResults] reads no
    other state and calls no [Math.random]. *)
Theorem calculateResults_deterministic (s1 s2 : AppState)
  (l1 l2 : list StationResult) :
  graph s1 = graph s2 ->
  params s1 = params s2 ->
  possible_results s1 l1 ->
  possible_results s2 l2 ->
  l1 = l2 /\
  l1 = results (calculateResults s1) /\
  possible_results s1 (results (calculateResults s1)).
Proof.
  intros Hg Hp [f1 [[[_ Hs1] Hst1] Hl1]] [f2 [[[_ Hs2] Hst2] Hl2]].
  assert (Hsame : scoredStations s2 = scoredStations s1).
  { unfold scoredStations, distA, distB, stations. now rewrite Hg, Hp. }
  rewrite Hsame in Hst2.
  assert (H1 : f1 = sort_by by_score_desc (scoredStations s1)).
  { apply sorted_stable_unique; [exact Hs1 | apply sort_by_score_sorted |].
    intro q. rewrite Hst1. symmetry.
    apply sort_by_filter. apply has_score_same_class. }
  assert (H2 : f2 = sort_by by_score_desc (scoredStations s1)).
  { apply sorted_stable_unique; [exact Hs2 | apply sort_by_score_sorted |].
    intro q. rewrite Hst2. symmetry.
    apply sort_by_filter. apply has_score_same_class. }
  rewrite calculateResults_results. subst l1 l2 f1 f2.
  split; [reflexivity |]. split; [reflexivity |].
  rewrite <- calculateResults_results. apply calculateResults_possible.
Qed.

Lemma calculateResults_deterministic_witness :
  results (calculateResults app_fresh) = results (calculateResults app_stale)
  /\
  results (calculateResults app_fresh) = results (calculateResults app_fresh)
  /\
  possible_results app_fresh (results (calculateResults app_fresh)).
Proof.
  apply (calculateResults_deterministic app_fresh app_stale
           (results (calculateResults app_fresh))
           (results (calculateResults app_stale))).
  - reflexivity.
  - reflexivity.
  - apply calculateResults_possible.
  - apply calculateResults_possible.
Defined.

(** C10. For every ratio in [0, 100] both derived weights are at least 0.5
    and the weight of the favoured commuter is at least 1 ([wA] when
    [ratio < 50], [wB] when [ratio > 50], both 1 at [ratio = 50]). *)
Theorem weights_bounded (r : Q) :
  0 <= r <= 100 ->
  (1 # 2) <= fst (weights r) /\ (1 # 2) <= snd (weights r) /\
  (r < 50 -> 1 <= fst (weights r)) /\
  (50 < r -> 1 <= snd (weights r)) /\
  (r == 50 -> weights r = (1, 1)).
Proof.
  intros _. unfold weights. destruct (Qltb r 50) eqn:E1.
  - apply Qltb_true_iff in E1. simpl.
    assert (H : 0 <= (50 - r) / 25).
    { apply Qle_shift_div_l; lra. }
    split; [lra |]. split; [apply Q.le_max_l |].
    split; [intros; lra |]. split; intro; lra.
  - apply Qltb_false_iff in E1. destruct (Qltb 50 r) eqn:E2.
    + apply Qltb_true_iff in E2. simpl.
      assert (H : 0 <= (r - 50) / 25).
      { apply Qle_shift_div_l; lra. }
      split; [apply Q.le_max_l |]. split; [lra |].
      split; [intro; lra |]. split; intro; lra.
    + apply Qltb_false_iff in E2. simpl.
      split; [lra |]. split; [lra |].
      split; [intro; lra |]. split; [intro; lra | reflexivity].
Qed.

Lemma weights_bounded_witness :
  (1 # 2) <= fst (weights 30) /\ (1 # 2) <= snd (weights 30) /\
  (30 < 50 -> 1 <= fst (weights 30)) /\
  (50 < 30 -> 1 <= snd (weights 30)) /\
  (30 == 50 -> weights 30 = (1, 1)).
Proof. apply (weights_bounded 30). split; lra. Defined.

(** * Further properties *)

(** ** Distances are the weights of shortest walks *)

Lemma source_distance (g : Graph) (s : string) :
  JsMap.get s (dijkstra g s) = Some (Fin 0).
Proof.
  destruct (dijkstra_rule g s (source_inv s)) as [u' [_ [[H _] _]]];
    [intros d u c q; apply source_inv_step | apply source_inv_start | exact H].
Qed.

Lemma relax_all_absent (u : JsSet.t) (m : num) (es : list Edge)
  (d : DistanceMap) (k : string) :
  JsMap.get k d = None -> JsMap.get k (relax_all u m es d) = None.
Proof.
  unfold relax_all. revert d.
  induction es as [| e es IH]; intros d Hnone; simpl; [exact Hnone |].
  apply IH. unfold relax_step.
  destruct (JsSet.has (to e) u); [| exact Hnone].
  destruct (JsMap.get (to e) d) as [old |] eqn:Hg; [| exact Hnone].
  destruct (num_ltb _ old); [| exact Hnone].
  rewrite get_set_other; [exact Hnone |].
  intro Heq. subst k. congruence.
Qed.

Lemma walk_inv_step (g : Graph) (s : string)
  (d : DistanceMap) (u : JsSet.t) (c : string) (q : Q) :
  walk_inv g s d u ->
  select_min d u = (Some c, Fin q) ->
  walk_inv g s
    (relax_all (JsSet.delete c u) (Fin q) (adjacency g c) d)
    (JsSet.delete c u).
Proof.
  intros [Hst Hwalk] Hsel.
  destruct (select_min_some _ _ _ _ Hsel) as [Hc [Hgetc _]].
  split.
  - intros k Hk. apply In_delete in Hk. apply Hst, Hk.
  - intros k qk Hget.
    destruct (JsSet.has k (JsSet.delete c u)) eqn:Hin.
    + apply JsSet_has_iff in Hin.
      destruct (JsMap.get k d) as [old |] eqn:Hold.
      * destruct (relax_all_mono (JsSet.delete c u) (Fin q) (adjacency g c)
                    d k old Hold) as [d' [Hget' [_ Hor]]].
        rewrite Hget in Hget'. inversion Hget'. subst d'.
        destruct Hor as [Heq | [e [He [Hto Hval]]]].
        -- subst old. now apply Hwalk.
        -- simpl in Hval. inversion Hval. subst k.
           apply (walk_step g s c e q); auto.
           apply Hst. apply In_delete in Hin. apply Hin.
      * rewrite relax_all_absent in Hget by exact Hold. discriminate.
    + rewrite relax_all_untouched in Hget.
      * now apply Hwalk.
      * intro H. apply JsSet_has_iff in H. congruence.
Qed.

Lemma walk_inv_start (g : Graph) (s : string) :
  walk_inv g s (fst (dijkstra_start g s)) (snd (dijkstra_start g s)).
Proof.
  split.
  - intros k Hk. now apply start_unvisited in Hk.
  - intros k q Hget. destruct (string_dec k s) as [Heq | Hne].
    + subst k. rewrite start_get_source in Hget. inversion Hget.
      apply walk_here.
    + rewrite start_get_other in Hget by exact Hne.
      destruct (JsMap.has k (nodes g)); discriminate.
Qed.

Lemma finite_distance_walk (g : Graph) (s k : string) (q : Q) :
  JsMap.get k (dijkstra g s) = Some (Fin q) -> walk g s k q.
Proof.
  destruct (dijkstra_rule g s (walk_inv g s)) as [u' [_ [[_ H] _]]];
    [intros d u c m; apply walk_inv_step | apply walk_inv_start |].
  apply H.
Qed.

Lemma walk_bounds_distance (g : Graph) (s k : string) (q : Q) :
  weights_nonneg g -> walk g s k q ->
  exists d, JsMap.get k (dijkstra g s) = Some d /\ num_le d (Fin q).
Proof.
  intros Hw Hwalk. induction Hwalk as [| u e q Hwalk IH Hu Hv He].
  - exists (Fin 0). split; [apply source_distance | apply num_le_refl].
  - destruct IH as [du [Hgu Hle]].
    destruct (dijkstra_entry_relaxed g Hw s u e Hu Hv He)
      as [du' [dv [Hgu' [Hgv Hrel]]]].
    rewrite Hgu in Hgu'. inversion Hgu'. subst du'.
    exists dv. split; [exact Hgv |].
    eapply num_le_trans; [exact Hrel |].
    destruct du as [x |]; simpl in *; [lra | contradiction].
Qed.

Lemma walk_nonneg (g : Graph) (s k : string) (q : Q) :
  weights_nonneg g -> walk g s k q -> 0 <= q.
Proof.
  intros Hw Hwalk. induction Hwalk as [| u e q Hwalk IH Hu Hv He].
  - lra.
  - pose proof (Hw u e He). lra.
Qed.

Lemma station_has_distance (g : Graph) (s k : string) :
  is_station g k -> exists d, JsMap.get k (dijkstra g s) = Some d.
Proof.
  intro Hk.
  destruct (dijkstra_rule g s
              (fun d _ => forall k, is_station g k ->
                                    exists dk, JsMap.get k d = Some dk))
    as [u' [_ [H _]]].
  - intros d u c q Hkeys Hsel k' Hk'. destruct (Hkeys k' Hk') as [dk Hget].
    destruct (relax_all_mono (JsSet.delete c u) (Fin q) (adjacency g c)
                d k' dk Hget) as [dk' [Hget' _]].
    eauto.
  - intros k' Hk'. destruct (string_dec k' s) as [Heq | Hne].
    + subst. rewrite start_get_source. eauto.
    + rewrite start_get_other by exact Hne. unfold is_station in Hk'.
      rewrite Hk'. eauto.
  - now apply H.
Qed.

(** X1. With weights that are not negative, a finite distance returned by
    [dijkstra] is the weight of a walk from the source, and no walk from
    the source to that station weighs less. *)
Theorem dijkstra_shortest (g : Graph) (s k : string) (q : Q) :
  weights_nonneg g ->
  JsMap.get k (dijkstra g s) = Some (Fin q) ->
  walk g s k q /\ forall q', walk g s k q' -> q <= q'.
Proof.
  intros Hw Hget. split.
  - now apply finite_distance_walk.
  - intros q' Hwalk.
    destruct (walk_bounds_distance g s k q' Hw Hwalk) as [d [Hd Hle]].
    rewrite Hget in Hd. inversion Hd. subst d. exact Hle.
Qed.

Lemma dijkstra_shortest_witness :
  walk line_XYZ "X" "Z" 7 /\ forall q', walk line_XYZ "X" "Z" q' -> 7 <= q'.
Proof.
  apply (dijkstra_shortest line_XYZ "X" "Z" 7).
  - apply weights_nonnegb_sound. vm_compute. reflexivity.
  - vm_compute. reflexivity.
Defined.

(** X2. With weights that are not negative, a station is at [Infinity] in
    the returned map exactly when no walk leads to it from the source. *)
Theorem dijkstra_infinite_iff_unreachable (g : Graph) (s k : string) :
  weights_nonneg g -> is_station g k ->
  (JsMap.get k (dijkstra g s) = Some Inf <-> ~ exists q, walk g s k q).
Proof.
  intros Hw Hk. split.
  - intros Hget [q Hwalk].
    destruct (walk_bounds_distance g s k q Hw Hwalk) as [d [Hd Hle]].
    rewrite Hget in Hd. inversion Hd. subst d. exact Hle.
  - intro Hno. destruct (station_has_distance g s k Hk) as [[q |] Hget].
    + exfalso. apply Hno. exists q. now apply finite_distance_walk.
    + exact Hget.
Qed.

Lemma dijkstra_infinite_iff_unreachable_witness :
  JsMap.get "X" (dijkstra island_XY "Y") = Some Inf <->
  ~ exists q, walk island_XY "Y" "X" q.
Proof.
  apply (dijkstra_infinite_iff_unreachable island_XY "Y" "X").
  - apply weights_nonnegb_sound. vm_compute. reflexivity.
  - vm_compute. reflexivity.
Defined.

Lemma walk_append (g : Graph) (a b c : string) (q1 q2 : Q) :
  walk g a b q1 -> walk g b c q2 ->
  exists q, walk g a c q /\ q == q1 + q2.
Proof.
  intros Hab Hbc. induction Hbc as [| u e q2 Hbu IH Hu Hv He].
  - exists q1. split; [exact Hab | lra].
  - destruct IH as [q [Hau Hq]].
    exists (q + weight e). split.
    + now apply (walk_step g a u e q).
    + lra.
Qed.

Lemma walk_reverse (g : Graph) (s t : string) (q : Q) :
  symmetric g -> walk g s t q ->
  exists q', walk g t s q' /\ q' == q.
Proof.
  intros Hsym Hwalk. induction Hwalk as [| u e q Hsu IH Hu Hv He].
  - exists 0. split; [apply walk_here | lra].
  - destruct IH as [qr [Hus Hqr]].
    destruct e as [v w]. simpl in *.
    pose proof (Hsym u v w He) as Hback.
    assert (Hvu : walk g v u (0 + w)).
    { apply (walk_step g v v (mkEdge u w) 0); auto. apply walk_here. }
    destruct (walk_append g v u s _ _ Hvu Hus) as [q' [Hvs Hq']].
    exists q'. split; [exact Hvs | lra].
Qed.

(** X3. In a symmetric graph with weights that are not negative, the
    distance from [s] to [t] and the distance from [t] to [s] are the same
    number, or both are [Infinity]. *)
Theorem dijkstra_distance_symmetric (g : Graph) (s t : string) :
  symmetric g -> weights_nonneg g -> is_station g s -> is_station g t ->
  match JsMap.get t (dijkstra g s), JsMap.get s (dijkstra g t) with
  | Some (Fin a), Some (Fin b) => a == b
  | Some Inf, Some Inf => True
  | _, _ => False
  end.
Proof.
  intros Hsym Hw Hs Ht.
  destruct (station_has_distance g s t Ht) as [dst Hst].
  destruct (station_has_distance g t s Hs) as [dts Hts].
  rewrite Hst, Hts.
  assert (Hhalf : forall x y a d,
             JsMap.get y (dijkstra g x) = Some (Fin a) ->
             JsMap.get x (dijkstra g y) = Some d ->
             exists b, d = Fin b /\ b <= a).
  { intros x y a d Hxy Hyx.
    apply finite_distance_walk in Hxy.
    destruct (walk_reverse g x y a Hsym Hxy) as [a' [Hback Ha']].
    destruct (walk_bounds_distance g y x a' Hw Hback) as [d' [Hd' Hle]].
    rewrite Hyx in Hd'. inversion Hd'. subst d'.
    destruct d as [b |]; simpl in Hle; [| contradiction].
    exists b. split; [reflexivity | lra]. }
  destruct dst as [a |], dts as [b |]; try exact I.
  - destruct (Hhalf s t a _ Hst Hts) as [b' [Hb' Hle1]]. inversion Hb'. subst b'.
    destruct (Hhalf t s b _ Hts Hst) as [a' [Ha' Hle2]]. inversion Ha'. subst a'.
    lra.
  - destruct (Hhalf s t a _ Hst Hts) as [b' [Hb' _]]. discriminate.
  - destruct (Hhalf t s b _ Hts Hst) as [a' [Ha' _]]. discriminate.
Qed.

Lemma line_XYZ_symmetric : symmetric line_XYZ.
Proof.
  assert (H : endpoints_known newGraph line_calls) by (vm_compute; tauto).
  assert (Hok0 : graph_ok newGraph) by (intro k; reflexivity).
  apply fold_call_symmetric; [exact Hok0 | | exact H].
  intros u v w Hin. unfold adjacency in Hin. simpl in Hin. contradiction.
Qed.

Lemma dijkstra_distance_symmetric_witness :
  match JsMap.get "Z" (dijkstra line_XYZ "X"),
        JsMap.get "X" (dijkstra line_XYZ "Z") with
  | Some (Fin a), Some (Fin b) => a == b
  | Some Inf, Some Inf => True
  | _, _ => False
  end.
Proof.
  apply (dijkstra_distance_symmetric line_XYZ "X" "Z").
  - exact line_XYZ_symmetric.
  - apply weights_nonnegb_sound. vm_compute. reflexivity.
  - vm_compute. reflexivity.
  - vm_compute. reflexivity.
Defined.

(** ** The graph store: lookups, listing, growth *)

Lemma set_absent {V : Type} (k : string) (v : V) (m : JsMap.t V) :
  JsMap.has k m = false -> JsMap.set k v m = m ++ [(k, v)].
Proof.
  unfold JsMap.has. induction m as [| [k' v'] m IH]; simpl.
  - reflexivity.
  - destruct (String.eqb k k') eqn:E; [discriminate |].
    intro H. now rewrite IH.
Qed.

Lemma set_present_keys {V : Type} (k : string) (v : V) (m : JsMap.t V) :
  JsMap.has k m = true -> JsMap.keys (JsMap.set k v m) = JsMap.keys m.
Proof.
  unfold JsMap.has. induction m as [| [k' v'] m IH]; simpl.
  - discriminate.
  - destruct (String.eqb k k') eqn:E; simpl; [reflexivity |].
    intro H. now rewrite IH.
Qed.

Lemma getStation_addNode (k : string) (s : Station) (g : Graph) :
  getStation k (addNode s g) =
  match getStation k g with
  | Some x => Some x
  | None => if String.eqb k (id s) then Some s else None
  end.
Proof.
  unfold getStation, addNode.
  destruct (JsMap.has (id s) (nodes g)) eqn:Hhas.
  - destruct (JsMap.get k (nodes g)) eqn:Hget; [reflexivity |].
    destruct (String.eqb k (id s)) eqn:E; [| reflexivity].
    apply String.eqb_eq in E. subst k.
    apply has_false_get in Hget. congruence.
  - simpl. destruct (String.eqb k (id s)) eqn:E.
    + apply String.eqb_eq in E. subst k. rewrite get_set_same.
      apply has_false_get in Hhas. now rewrite Hhas.
    + apply String.eqb_neq in E. rewrite get_set_other by exact E.
      now destruct (JsMap.get k (nodes g)).
Qed.

(** X4. A lookup in an assembled graph returns the first station that was
    added under that id: later [addNode] calls with the same id, and all
    [addEdge] calls, leave it as it is; an id never added gives
    [undefined]. *)
Theorem getStation_first_added (cs : list GraphCall) (k : string) :
  getStation k (build cs) = first_added k cs.
Proof.
  assert (Hfold : forall cs' g,
             getStation k (fold_left call cs' g) =
             match getStation k g with
             | Some x => Some x
             | None => first_added k cs'
             end).
  { induction cs' as [| c cs' IH]; intro g; simpl.
    - now destruct (getStation k g).
    - rewrite IH. destruct c as [s | a b w]; simpl; [| reflexivity].
      rewrite getStation_addNode.
      destruct (getStation k g); [reflexivity |].
      now destruct (String.eqb k (id s)). }
  unfold build. now rewrite Hfold.
Qed.

Lemma addNode_nodes_ok (s : Station) (g : Graph) :
  nodes_ok g -> nodes_ok (addNode s g).
Proof.
  intros [Hnd Hid]. unfold addNode.
  destruct (JsMap.has (id s) (nodes g)) eqn:Hhas; [now split |].
  unfold nodes_ok. simpl. rewrite set_absent by exact Hhas. split.
  - unfold JsMap.keys. rewrite map_app. simpl.
    apply NoDup_app; [exact Hnd | repeat constructor; auto |].
    intros x Hx [Heq | []]. subst x.
    apply has_true_iff in Hx. congruence.
  - apply Forall_app. split; [exact Hid | now repeat constructor].
Qed.

Lemma fold_call_nodes_ok (cs : list GraphCall) (g : Graph) :
  nodes_ok g -> nodes_ok (fold_left call cs g).
Proof.
  revert g. induction cs as [| c cs IH]; intros g Hok; simpl; [exact Hok |].
  apply IH. destruct c; simpl; [now apply addNode_nodes_ok | exact Hok].
Qed.

Lemma build_nodes_ok (cs : list GraphCall) : nodes_ok (build cs).
Proof. apply fold_call_nodes_ok. split; constructor. Qed.

Lemma get_NoDup_In {V : Type} (k : string) (v : V) (m : JsMap.t V) :
  NoDup (JsMap.keys m) -> In (k, v) m -> JsMap.get k m = Some v.
Proof.
  induction m as [| [k' v'] m IH]; simpl; intros Hnd Hin; [contradiction |].
  inversion Hnd as [| ? ? Hnotin Hnd']. subst.
  destruct Hin as [Heq | Hin].
  - inversion Heq. subst. now rewrite String.eqb_refl.
  - destruct (String.eqb k k') eqn:E.
    + apply String.eqb_eq in E. subst k'. exfalso. apply Hnotin.
      unfold JsMap.keys. apply in_map_iff. exists (k, v). auto.
    + now apply IH.
Qed.

(** X5. The listing of an assembled graph names every id once, and looking
    up the id of a listed station gives that station back. *)
Theorem listing_lookup (cs : list GraphCall) :
  NoDup (map id (getAllStations (build cs))) /\
  forall s, In s (getAllStations (build cs)) ->
            getStation (id s) (build cs) = Some s.
Proof.
  destruct (build_nodes_ok cs) as [Hnd Hid].
  rewrite Forall_forall in Hid.
  assert (Hkeys : map id (getAllStations (build cs))
                  = JsMap.keys (nodes (build cs))).
  { unfold getAllStations, JsMap.values, JsMap.keys. rewrite map_map.
    apply map_ext_in. intros kv Hkv. now apply Hid. }
  split.
  - rewrite Hkeys. exact Hnd.
  - intros s Hs. unfold getAllStations, JsMap.values in Hs.
    apply in_map_iff in Hs. destruct Hs as [[k s'] [Heq Hin]].
    simpl in Heq. subst s'. pose proof (Hid _ Hin) as Hk. simpl in Hk.
    rewrite Hk. unfold getStation. now apply get_NoDup_In.
Qed.

Lemma list_sum_set (k : string) (l v : list Edge) (m : JsMap.t (list Edge)) :
  JsMap.get k m = Some l ->
  (list_sum (map (fun kv => List.length (snd kv)) (JsMap.set k v m))
   + List.length l
   = list_sum (map (fun kv => List.length (snd kv)) m) + List.length v)%nat.
Proof.
  induction m as [| [k' v'] m IH]; simpl; [discriminate |].
  destruct (String.eqb k k') eqn:E; simpl.
  - intro H. inversion H. subst. lia.
  - intro H. specialize (IH H). lia.
Qed.

Lemma total_push_at (k : string) (e : Edge) (m : JsMap.t (list Edge)) :
  list_sum (map (fun kv => List.length (snd kv)) (push_at k e m))
  = (list_sum (map (fun kv => List.length (snd kv)) m)
     + (if JsMap.has k m then 1 else 0))%nat.
Proof.
  unfold push_at, JsMap.has.
  destruct (JsMap.get k m) as [l |] eqn:Hget; [| lia].
  pose proof (list_sum_set k l (l ++ [e]) m Hget) as H.
  rewrite length_app in H. simpl in H. lia.
Qed.

Lemma total_addEdge (a b : string) (w : Q) (g : Graph) :
  graph_ok g -> is_station g a -> is_station g b ->
  total_entries (addEdge a b w g) = (total_entries g + 2)%nat.
Proof.
  intros Hok Ha Hb. unfold is_station in Ha, Hb. rewrite <- Hok in Ha, Hb.
  unfold total_entries, addEdge. simpl.
  rewrite !total_push_at, push_at_has, Ha, Hb. lia.
Qed.

Lemma total_addNode (s : Station) (g : Graph) :
  graph_ok g -> total_entries (addNode s g) = total_entries g.
Proof.
  intro Hok. unfold addNode.
  destruct (JsMap.has (id s) (nodes g)) eqn:Hhas; [reflexivity |].
  unfold total_entries. simpl. rewrite <- Hok in Hhas.
  rewrite set_absent by exact Hhas.
  rewrite map_app, list_sum_app. simpl. lia.
Qed.

Lemma total_fold (cs : list GraphCall) (g : Graph) :
  graph_ok g -> endpoints_known g cs ->
  total_entries (fold_left call cs g)
  = (total_entries g + 2 * count_addEdge cs)%nat.
Proof.
  revert g. induction cs as [| c cs IH]; intros g Hok Hknown; simpl.
  - unfold count_addEdge. simpl. lia.
  - destruct Hknown as [Hc Hrest].
    rewrite IH; [| now apply call_ok | exact Hrest].
    destruct c as [s | a b w]; simpl.
    + rewrite total_addNode by exact Hok. reflexivity.
    + destruct Hc as [Ha Hb]. rewrite total_addEdge by assumption.
      unfold count_addEdge. simpl. lia.
Qed.

(** X6. When every [addEdge] names two stations already added, the
    adjacency lists hold exactly two entries per [addEdge] call: parallel
    edges and self-loops are stored again, never merged. *)
Theorem adjacency_entries_count (cs : list GraphCall) :
  endpoints_known newGraph cs ->
  total_entries (build cs) = (2 * count_addEdge cs)%nat.
Proof.
  intro Hknown. unfold build.
  rewrite total_fold; [reflexivity | intro k; reflexivity | exact Hknown].
Qed.

Lemma adjacency_entries_count_witness :
  total_entries (build line_calls) = (2 * count_addEdge line_calls)%nat.
Proof.
  apply (adjacency_entries_count line_calls). vm_compute. tauto.
Defined.

Lemma call_grows (c : GraphCall) (g : Graph) (k : string) :
  graph_ok g ->
  (exists l, adjacency (call g c) k = adjacency g k ++ l) /\
  (exists l, getAllStations (call g c) = getAllStations g ++ l).
Proof.
  intro Hok. destruct c as [s | a b w]; simpl.
  - split.
    + exists []. rewrite adjacency_addNode by exact Hok. now rewrite app_nil_r.
    + unfold addNode, getAllStations.
      destruct (JsMap.has (id s) (nodes g)) eqn:Hhas.
      * exists []. now rewrite app_nil_r.
      * exists [s]. simpl. rewrite set_absent by exact Hhas.
        unfold JsMap.values. now rewrite map_app.
  - split.
    + rewrite adjacency_addEdge. eauto.
    + exists []. now rewrite app_nil_r.
Qed.

Lemma fold_call_grows (cs : list GraphCall) (g : Graph) (k : string) :
  graph_ok g ->
  (exists l, adjacency (fold_left call cs g) k = adjacency g k ++ l) /\
  (exists l, getAllStations (fold_left call cs g) = getAllStations g ++ l).
Proof.
  revert g. induction cs as [| c cs IH]; intros g Hok; simpl.
  - split; exists []; now rewrite app_nil_r.
  - destruct (IH (call g c) (call_ok g c Hok)) as [[l1 H1] [l2 H2]].
    destruct (call_grows c g k Hok) as [[l3 H3] [l4 H4]].
    split.
    + exists (l3 ++ l1). now rewrite H1, H3, app_assoc.
    + exists (l4 ++ l2). now rewrite H2, H4, app_assoc.
Qed.

(** X7. Nothing is ever removed or reordered: after further calls the
    adjacency list of every id and the station listing still start with
    what they held before. *)
Theorem graph_only_grows (cs cs' : list GraphCall) (k : string) :
  (exists l, adjacency (build (cs ++ cs')) k = adjacency (build cs) k ++ l) /\
  (exists l, getAllStations (build (cs ++ cs'))
             = getAllStations (build cs) ++ l).
Proof.
  unfold build at 1 3. rewrite fold_left_app.
  apply fold_call_grows. apply build_ok.
Qed.

(** ** The entries of the distance map *)

Lemma init_fold_keys (l : JsMap.t Station) (acc : DistanceMap * JsSet.t) :
  NoDup (JsMap.keys (fst acc) ++ JsMap.keys l) ->
  JsMap.keys (fst (fold_left init_step l acc))
  = JsMap.keys (fst acc) ++ JsMap.keys l.
Proof.
  revert acc. induction l as [| [k s] l IH]; intros acc Hnd; simpl.
  - now rewrite app_nil_r.
  - simpl in Hnd.
    assert (Habs : JsMap.has k (fst acc) = false).
    { destruct (JsMap.has k (fst acc)) eqn:E; [| reflexivity].
      apply has_true_iff in E. apply NoDup_remove_2 in Hnd.
      exfalso. apply Hnd. apply in_or_app. now left. }
    assert (Hkeys : JsMap.keys (JsMap.set k Inf (fst acc))
                    = JsMap.keys (fst acc) ++ [k]).
    { rewrite set_absent by exact Habs. unfold JsMap.keys.
      now rewrite map_app. }
    rewrite IH; simpl; rewrite Hkeys, <- app_assoc; [reflexivity | exact Hnd].
Qed.

Lemma relax_all_keys (u : JsSet.t) (m : num) (es : list Edge)
  (d : DistanceMap) :
  JsMap.keys (relax_all u m es d) = JsMap.keys d.
Proof.
  unfold relax_all. revert d.
  induction es as [| e es IH]; intro d; simpl; [reflexivity |].
  rewrite IH. unfold relax_step.
  destruct (JsSet.has (to e) u); [| reflexivity].
  destruct (JsMap.get (to e) d) as [old |] eqn:Hg; [| reflexivity].
  destruct (num_ltb _ old); [| reflexivity].
  apply set_present_keys. unfold JsMap.has. now rewrite Hg.
Qed.

(** X8. For an assembled graph the returned distance map has exactly one
    entry per station, in listing order, followed by an entry for the
    source when the source is no station. *)
Theorem dijkstra_keys (cs : list GraphCall) (s : string) :
  JsMap.keys (dijkstra (build cs) s)
  = JsMap.keys (nodes (build cs))
    ++ (if JsMap.has s (nodes (build cs)) then [] else [s]).
Proof.
  destruct (dijkstra_rule (build cs) s
              (fun d _ => JsMap.keys d
                          = JsMap.keys (fst (dijkstra_start (build cs) s))))
    as [u' [_ [H _]]].
  - intros d u c q Hd _. now rewrite relax_all_keys.
  - reflexivity.
  - rewrite H, dijkstra_start_eq. simpl.
    destruct (build_nodes_ok cs) as [Hnd _].
    assert (Hinit : JsMap.keys (fst (init_all (build cs)))
                    = JsMap.keys (nodes (build cs))).
    { unfold init_all. now rewrite init_fold_keys. }
    assert (Hhas : JsMap.has s (fst (init_all (build cs)))
                   = JsMap.has s (nodes (build cs))).
    { unfold JsMap.has at 1. unfold init_all. rewrite init_fold_get. simpl.
      now destruct (JsMap.has s (nodes (build cs))). }
    destruct (JsMap.has s (nodes (build cs))) eqn:E.
    + rewrite set_present_keys by exact Hhas. now rewrite app_nil_r.
    + rewrite set_absent by exact Hhas.
      unfold JsMap.keys at 1. rewrite map_app. simpl.
      now rewrite <- Hinit.
Qed.

(** ** The ranking: how scores compare *)

Lemma weights_at_least_half (r : Q) :
  (1 # 2) <= fst (weights r) /\ (1 # 2) <= snd (weights r).
Proof.
  unfold weights. destruct (Qltb r 50) eqn:E1.
  - apply Qltb_true_iff in E1. simpl.
    assert (H : 0 <= (50 - r) / 25) by (apply Qle_shift_div_l; lra).
    split; [lra | apply Q.le_max_l].
  - destruct (Qltb 50 r) eqn:E2; simpl.
    + apply Qltb_true_iff in E2.
      assert (H : 0 <= (r - 50) / 25) by (apply Qle_shift_div_l; lra).
      split; [apply Q.le_max_l | lra].
    + split; lra.
Qed.

Lemma clamp_mono (x y : Q) : x <= y -> clamp_0_100 x <= clamp_0_100 y.
Proof.
  intro H. unfold clamp_0_100.
  apply Q.max_le_compat_l. now apply Q.min_le_compat_l.
Qed.

Lemma clamp_drop (x : Q) : clamp_0_100 x <= clamp_0_100 (x - 15) + 15.
Proof.
  unfold clamp_0_100.
  destruct (Q.min_spec 100 x) as [[H1 E1] | [H1 E1]];
    destruct (Q.min_spec 100 (x - 15)) as [[H2 E2] | [H2 E2]];
    destruct (Q.max_spec 0 (Qmin 100 x)) as [[H3 E3] | [H3 E3]];
    destruct (Q.max_spec 0 (Qmin 100 (x - 15))) as [[H4 E4] | [H4 E4]];
    rewrite E3, E4; rewrite ?E1, ?E2 in *; lra.
Qed.

Lemma unpenalized_mono (wA wB la a1 a2 b1 b2 : Q) :
  0 <= wA -> 0 <= wB -> 0 <= la <= 1 -> a1 <= a2 -> b1 <= b2 ->
  unpenalized_score wA wB la a2 b2 <= unpenalized_score wA wB la a1 b1.
Proof.
  intros HA HB [Hl0 Hl1] Ha Hb. unfold unpenalized_score.
  assert (HpA : wA * a1 <= wA * a2).
  { rewrite (Qmult_comm wA a1), (Qmult_comm wA a2).
    now apply Qmult_le_compat_r. }
  assert (HpB : wB * b1 <= wB * b2).
  { rewrite (Qmult_comm wB b1), (Qmult_comm wB b2).
    now apply Qmult_le_compat_r. }
  assert (Hmax : Qmax (wA * a1) (wB * b1) <= Qmax (wA * a2) (wB * b2))
    by now apply Q.max_le_compat.
  set (M1 := Qmax (wA * a1) (wB * b1)) in *.
  set (M2 := Qmax (wA * a2) (wB * b2)) in *.
  set (S1 := wA * a1 + wB * b1). set (S2 := wA * a2 + wB * b2).
  assert (HS : S1 <= S2) by (unfold S1, S2; lra).
  assert (H1 : la * M1 <= la * M2).
  { rewrite (Qmult_comm la M1), (Qmult_comm la M2).
    now apply Qmult_le_compat_r. }
  assert (H2 : (1 - la) * S1 <= (1 - la) * S2).
  { rewrite (Qmult_comm (1 - la) S1), (Qmult_comm (1 - la) S2).
    apply Qmult_le_compat_r; [exact HS | lra]. }
  assert (H3 : (la * M1 + (1 - la) * S1) / 120
               <= (la * M2 + (1 - la) * S2) / 120).
  { apply Qmult_le_compat_r; [lra |]. apply Qinv_le_0_compat. lra. }
  lra.
Qed.

(** X9. With [lambda] in [0, 1], a scored station that is no farther from
    either workplace than another one, and no dearer, never scores lower. *)
Theorem score_dominance (s : AppState) (r1 r2 : StationResult) :
  0 <= lambda (params s) <= 1 ->
  In r1 (scoredStations s) -> In r2 (scoredStations s) ->
  timeA r1 <= timeA r2 -> timeB r1 <= timeB r2 ->
  rent (station r1) <= rent (station r2) ->
  score r2 <= score r1.
Proof.
  intros Hl H1 H2 Ha Hb Hrent.
  apply In_scoredStations in H1. destruct H1 as [x1 [_ Hs1]].
  apply In_scoredStations in H2. destruct H2 as [x2 [_ Hs2]].
  apply score_station_some in Hs1. destruct Hs1 as [Hx1 [_ [_ [Hsc1 _]]]].
  apply score_station_some in Hs2. destruct Hs2 as [Hx2 [_ [_ [Hsc2 _]]]].
  rewrite Hsc1, Hsc2. rewrite <- Hx1, <- Hx2. apply clamp_mono.
  destruct (weights_at_least_half (ratio (params s))) as [HwA HwB].
  pose proof (unpenalized_mono
                (fst (weights (ratio (params s))))
                (snd (weights (ratio (params s))))
                (lambda (params s)) _ _ _ _
                ltac:(lra) ltac:(lra) Hl Ha Hb) as Hraw.
  destruct (Qltb (budget (params s)) (rent (station r2))) eqn:E2;
    destruct (Qltb (budget (params s)) (rent (station r1))) eqn:E1;
    try lra.
  apply Qltb_true_iff in E1. apply Qltb_false_iff in E2. lra.
Qed.

Lemma score_dominance_witness :
  score (mkResult (st "Q" 10) 10 10 (10000 # 120) (Balanced "Q"))
  <= score (mkResult (st "P" 10) 5 5 (11000 # 120) (Balanced "P")).
Proof.
  apply (score_dominance app_fork
           (mkResult (st "P" 10) 5 5 (11000 # 120) (Balanced "P"))
           (mkResult (st "Q" 10) 10 10 (10000 # 120) (Balanced "Q"))).
  - vm_compute. split; discriminate.
  - vm_compute. right. right. right. left. reflexivity.
  - vm_compute. right. right. left. reflexivity.
  - vm_compute. discriminate.
  - vm_compute. discriminate.
  - vm_compute. discriminate.
Defined.

(** X10. For one station and a larger budget the score is not lower, and
    it is higher by at most 15 points. *)
Theorem budget_effect (dA dB : DistanceMap) (wA wB la b1 b2 : Q)
  (x : Station) (r1 r2 : StationResult) :
  b1 <= b2 ->
  score_station dA dB wA wB la b1 x = Some r1 ->
  score_station dA dB wA wB la b2 x = Some r2 ->
  score r1 <= score r2 <= score r1 + 15.
Proof.
  intros Hb H1 H2.
  apply score_station_some in H1.
  destruct H1 as [_ [HA1 [HB1 [Hsc1 _]]]].
  apply score_station_some in H2.
  destruct H2 as [_ [HA2 [HB2 [Hsc2 _]]]].
  rewrite HA1 in HA2. inversion HA2 as [Ha].
  rewrite HB1 in HB2. inversion HB2 as [Hb'].
  rewrite Hsc1, Hsc2, <- Ha, <- Hb'.
  set (raw := unpenalized_score wA wB la (timeA r1) (timeB r1)).
  pose proof (clamp_drop raw) as Hdrop.
  assert (Hmono : clamp_0_100 (raw - 15) <= clamp_0_100 raw)
    by (apply clamp_mono; lra).
  destruct (Qltb b1 (rent x)) eqn:E1; destruct (Qltb b2 (rent x)) eqn:E2;
    try (split; lra).
  apply Qltb_false_iff in E1. apply Qltb_true_iff in E2. lra.
Qed.

Lemma budget_effect_witness :
  score (mkResult (st "Y" 20) 3 4 (38600 # 480) (Balanced "Y"))
  <= score (mkResult (st "Y" 20) 3 4 (45800 # 480) (Balanced "Y"))
  <= score (mkResult (st "Y" 20) 3 4 (38600 # 480) (Balanced "Y")) + 15.
Proof.
  apply (budget_effect (dijkstra line_XYZ "X") (dijkstra line_XYZ "Z")
           1 1 (1 # 2) 15 25 (st "Y" 20)).
  - vm_compute. discriminate.
  - vm_compute. reflexivity.
  - vm_compute. reflexivity.
Defined.

(** X11. The weight derivation is mirrored about [ratio = 50]: exchanging
    [ratio] for [100 - ratio] exchanges the two weights; and for a ratio
    in [0, 100] neither weight exceeds 3. *)
Theorem weights_mirror (r : Q) :
  0 <= r <= 100 ->
  fst (weights (100 - r)) == snd (weights r) /\
  snd (weights (100 - r)) == fst (weights r) /\
  fst (weights r) <= 3 /\ snd (weights r) <= 3.
Proof.
  intros [H0 H100].
  assert (Hmax : forall a b, a == b -> Qmax (1 # 2) a == Qmax (1 # 2) b).
  { intros a b Hab. now rewrite Hab. }
  assert (Hd25 : forall a b, a == b -> a / 25 == b / 25).
  { intros a b Hab. now rewrite Hab. }
  assert (Hd50 : forall a b, a == b -> a / 50 == b / 50).
  { intros a b Hab. now rewrite Hab. }
  assert (Hup : forall a, 0 <= a -> a <= 50 -> 1 + a / 25 <= 3).
  { intros a Ha0 Ha. assert (a / 25 <= 2); [| lra].
    apply Qle_shift_div_r; lra. }
  assert (Hlow : forall a, 0 <= a -> Qmax (1 # 2) (1 - a / 50) <= 3).
  { intros a Ha. apply Q.max_lub; [lra |].
    assert (0 <= a / 50) by (apply Qle_shift_div_l; lra). lra. }
  unfold weights.
  destruct (Qltb r 50) eqn:E1; destruct (Qltb (100 - r) 50) eqn:E2;
    destruct (Qltb 50 r) eqn:E3; destruct (Qltb 50 (100 - r)) eqn:E4;
    try apply Qltb_true_iff in E1; try apply Qltb_false_iff in E1;
    try apply Qltb_true_iff in E2; try apply Qltb_false_iff in E2;
    try apply Qltb_true_iff in E3; try apply Qltb_false_iff in E3;
    try apply Qltb_true_iff in E4; try apply Qltb_false_iff in E4;
    try (exfalso; lra); simpl.
  - split; [apply Hmax | split; [| split; [apply Hup | apply Hlow]]];
      try lra.
    + assert (H : (100 - r - 50) / 50 == (50 - r) / 50)
        by (apply Hd50; lra). lra.
    + assert (H : (100 - r - 50) / 25 == (50 - r) / 25)
        by (apply Hd25; lra). lra.
  - split; [| split; [apply Hmax | split; [apply Hlow | apply Hup]]];
      try lra.
    + assert (H : (50 - (100 - r)) / 25 == (r - 50) / 25)
        by (apply Hd25; lra). lra.
    + assert (H : (50 - (100 - r)) / 50 == (r - 50) / 50)
        by (apply Hd50; lra). lra.
  - repeat split; lra.
Qed.

Lemma weights_mirror_witness :
  fst (weights (100 - 30)) == snd (weights 30) /\
  snd (weights (100 - 30)) == fst (weights 30) /\
  fst (weights 30) <= 3 /\ snd (weights 30) <= 3.
Proof. apply (weights_mirror 30). split; lra. Defined.

(** ** The ranking: what the result list holds *)

(** X12. Every scored station carries the explanation chosen from its two
    times: the balanced one exactly when they differ by at most 5 minutes,
    the one favouring A when A is nearer by more than 5, the one favouring
    B when B is nearer by more than 5; each is filled with the station's
    name. *)
Theorem reason_classification (s : AppState) (r : StationResult) :
  In r (scoredStations s) ->
  match aiReason r with
  | Balanced n =>
      n = name (station r) /\ - (5) <= timeA r - timeB r <= 5
  | FavoursA n => n = name (station r) /\ 5 < timeB r - timeA r
  | FavoursB n => n = name (station r) /\ 5 < timeA r - timeB r
  end.
Proof.
  intro Hr. apply In_scoredStations in Hr. destruct Hr as [x [_ Hsc]].
  apply score_station_some in Hsc.
  destruct Hsc as [Hx [_ [_ [_ Hreason]]]].
  rewrite Hreason, Hx. unfold generateMockAIReasons.
  destruct (Qle_bool (Qabs (timeA r - timeB r)) 5) eqn:E.
  - apply Qle_bool_iff in E. apply Qabs_Qle_condition in E.
    split; [reflexivity | exact E].
  - assert (Hgt : 5 < Qabs (timeA r - timeB r)).
    { apply Qnot_le_lt. intro Hle. apply Qle_bool_iff in Hle. congruence. }
    destruct (Qltb (timeA r) (timeB r)) eqn:E2.
    + apply Qltb_true_iff in E2. split; [reflexivity |].
      rewrite Qabs_neg in Hgt by lra. lra.
    + apply Qltb_false_iff in E2. split; [reflexivity |].
      rewrite Qabs_pos in Hgt by lra. exact Hgt.
Qed.

Lemma reason_classification_witness :
  match aiReason (mkResult (st "X" 10) 0 7 (45200 # 480) (FavoursA "X")) with
  | Balanced n => n = "X" /\ - (5) <= 0 - 7 <= 5
  | FavoursA n => n = "X" /\ 5 < 7 - 0
  | FavoursB n => n = "X" /\ 5 < 0 - 7
  end.
Proof.
  apply (reason_classification app_fresh
           (mkResult (st "X" 10) 0 7 (45200 # 480) (FavoursA "X"))).
  vm_compute. left. reflexivity.
Defined.

(** X13. With weights that are not negative, the two times of every
    scored station are not negative; the station that is workplace A has
    [timeA = 0] and the one that is workplace B has [timeB = 0]. *)
Theorem scored_times (s : AppState) (r : StationResult) :
  weights_nonneg (graph s) ->
  In r (scoredStations s) ->
  0 <= timeA r /\ 0 <= timeB r /\
  (id (station r) = workplaceA (params s) -> timeA r = 0) /\
  (id (station r) = workplaceB (params s) -> timeB r = 0).
Proof.
  intros Hw Hr. apply In_scoredStations in Hr. destruct Hr as [x [_ Hsc]].
  apply score_station_some in Hsc. destruct Hsc as [Hx [HA [HB _]]].
  rewrite Hx. unfold distA in HA. unfold distB in HB.
  split; [| split; [| split]].
  - apply finite_distance_walk in HA. eapply walk_nonneg; eassumption.
  - apply finite_distance_walk in HB. eapply walk_nonneg; eassumption.
  - intro Hid. rewrite Hid, source_distance in HA. now inversion HA.
  - intro Hid. rewrite Hid, source_distance in HB. now inversion HB.
Qed.

Lemma scored_times_witness :
  0 <= 0 /\ 0 <= 7 /\
  ("X" = workplaceA (params app_fresh) -> 0 = 0) /\
  ("X" = workplaceB (params app_fresh) -> 7 = 0).
Proof.
  apply (scored_times app_fresh
           (mkResult (st "X" 10) 0 7 (45200 # 480) (FavoursA "X"))).
  - apply weights_nonnegb_sound. vm_compute. reflexivity.
  - vm_compute. left. reflexivity.
Defined.

Lemma sorted_app_cross {A : Type} (R : A -> A -> Prop) (l1 l2 : list A) :
  StronglySorted R (l1 ++ l2) ->
  forall a b, In a l1 -> In b l2 -> R a b.
Proof.
  induction l1 as [| x l1 IH]; simpl; intros Hs a b Ha Hb; [contradiction |].
  apply StronglySorted_inv in Hs. destruct Hs as [Hs Hall].
  destruct Ha as [Heq | Ha].
  - subst x. rewrite Forall_forall in Hall. apply Hall.
    apply in_or_app. now right.
  - now apply IH.
Qed.

(** X14. The stations left out of the result list are scored ones that
    score no higher than any returned station. *)
Theorem omitted_not_better (s : AppState) :
  exists rest,
    Permutation (results (calculateResults s) ++ rest) (scoredStations s) /\
    forall r r', In r (results (calculateResults s)) -> In r' rest ->
                 score r' <= score r.
Proof.
  exists (skipn 10 (sort_by by_score_desc (scoredStations s))).
  rewrite calculateResults_results. split.
  - rewrite firstn_skipn. apply sort_by_perm.
  - intros r r' Hr Hr'.
    apply (sorted_app_cross score_ge
             (firstn 10 (sort_by by_score_desc (scoredStations s)))
             (skipn 10 (sort_by by_score_desc (scoredStations s))));
      [| exact Hr | exact Hr'].
    rewrite firstn_skipn. apply sort_by_score_sorted.
Qed.

Lemma results_nil_iff (s : AppState) :
  results (calculateResults s) = [] <-> scoredStations s = [].
Proof.
  rewrite calculateResults_results. split; intro H.
  - destruct (sort_by by_score_desc (scoredStations s)) eqn:E;
      [| discriminate].
    pose proof (sort_by_perm by_score_desc (scoredStations s)) as Hp.
    rewrite E in Hp. now apply Permutation_nil in Hp.
  - now rewrite H.
Qed.

(** X15. The result list is empty exactly when no listed station has a
    finite distance from both workplaces; nothing is raised in that
    case. *)
Theorem results_empty_iff (s : AppState) :
  results (calculateResults s) = [] <->
  forall x, In x (stations s) ->
            ~ (finite_at (distA s) (id x) /\ finite_at (distB s) (id x)).
Proof.
  rewrite results_nil_iff. split.
  - intros Hnil x Hx Hfin. apply score_of_finite in Hfin.
    destruct Hfin as [r Hr].
    assert (Hin : In r (scoredStations s))
      by (apply In_scoredStations; eauto).
    rewrite Hnil in Hin. contradiction.
  - intro Hnone. destruct (scoredStations s) as [| r l] eqn:E; [reflexivity |].
    assert (Hin : In r (scoredStations s)) by (rewrite E; now left).
    apply In_scoredStations in Hin. destruct Hin as [x [Hx Hsc]].
    exfalso. apply (Hnone x Hx). apply score_of_finite. eauto.
Qed.

Lemma station_listed (cs : list GraphCall) (k : string) :
  is_station (build cs) k ->
  exists x, In x (getAllStations (build cs)) /\ id x = k.
Proof.
  intro Hk. unfold is_station, JsMap.has in Hk.
  destruct (JsMap.get k (nodes (build cs))) as [x |] eqn:Hget;
    [| discriminate].
  apply get_In in Hget. destruct (build_nodes_ok cs) as [_ Hid].
  rewrite Forall_forall in Hid. exists x. split.
  - unfold getAllStations, JsMap.values. apply in_map_iff.
    exists (k, x). auto.
  - apply (Hid _ Hget).
Qed.

(** X16. On an assembled graph with weights that are not negative, when
    workplace A is a station and a walk leads to it from workplace B, the
    result list is not empty: workplace A itself is scored. *)
Theorem results_nonempty (s : AppState) (cs : list GraphCall) (q : Q) :
  graph s = build cs ->
  weights_nonneg (graph s) ->
  is_station (graph s) (workplaceA (params s)) ->
  walk (graph s) (workplaceB (params s)) (workplaceA (params s)) q ->
  results (calculateResults s) <> [].
Proof.
  intros Hg Hw HA Hwalk Hnil.
  rewrite Hg in HA. destruct (station_listed cs _ HA) as [x [Hx Hid]].
  assert (Hfin : finite_at (distA s) (id x) /\ finite_at (distB s) (id x)).
  { rewrite Hid. split.
    - exists 0. unfold distA. apply source_distance.
    - destruct (walk_bounds_distance _ _ _ _ Hw Hwalk) as [d [Hd Hle]].
      destruct d as [b |]; [| contradiction].
      exists b. exact Hd. }
  apply score_of_finite in Hfin. destruct Hfin as [r Hr].
  assert (Hin : In r (scoredStations s)).
  { apply In_scoredStations. exists x. split; [| exact Hr].
    unfold stations. now rewrite Hg. }
  apply results_nil_iff in Hnil. rewrite Hnil in Hin. contradiction.
Qed.

Lemma results_nonempty_witness : results (calculateResults app_fresh) <> [].
Proof.
  apply (results_nonempty app_fresh line_calls 7).
  - reflexivity.
  - apply weights_nonnegb_sound. vm_compute. reflexivity.
  - vm_compute. reflexivity.
  - apply (finite_distance_walk line_XYZ "Z" "X" 7). vm_compute. reflexivity.
Defined.

(** ** Searches with a workplace that is no station *)

Lemma unknown_source_infinite (g : Graph) (s k : string) :
  ~ is_station g s -> is_station g k ->
  JsMap.get k (dijkstra g s) = Some Inf.
Proof.
  intros Hs Hk.
  destruct (dijkstra_rule g s (start_inv g s)) as [u' [_ [[Hd _] _]]].
  - intros d u c q [Hd Hu] Hsel. exfalso. subst d u.
    destruct (select_min_some _ _ _ _ Hsel) as [Hc [Hget _]].
    apply start_unvisited in Hc.
    assert (Hne : c <> s) by (intro; subst; contradiction).
    rewrite start_get_other in Hget by exact Hne.
    unfold is_station in Hc. rewrite Hc in Hget. discriminate.
  - split; reflexivity.
  - rewrite Hd.
    assert (Hne : k <> s) by (intro; subst; contradiction).
    rewrite start_get_other by exact Hne.
    unfold is_station in Hk. now rewrite Hk.
Qed.

Lemma unknown_workplace_scored_nil (s : AppState) (cs : list GraphCall) :
  graph s = build cs ->
  ~ is_station (graph s) (workplaceA (params s)) \/
  ~ is_station (graph s) (workplaceB (params s)) ->
  scoredStations s = [].
Proof.
  intros Hg Hunknown.
  destruct (scoredStations s) as [| r l] eqn:E; [reflexivity |].
  assert (Hin : In r (scoredStations s)) by (rewrite E; now left).
  apply In_scoredStations in Hin. destruct Hin as [x [Hx Hsc]].
  apply score_station_some in Hsc. destruct Hsc as [_ [HA [HB _]]].
  assert (Hst : is_station (graph s) (id x)).
  { unfold stations in Hx. rewrite Hg in Hx |- *.
    destruct (build_nodes_ok cs) as [_ Hid]. rewrite Forall_forall in Hid.
    unfold getAllStations, JsMap.values in Hx. apply in_map_iff in Hx.
    destruct Hx as [[k x'] [Heq Hin]]. simpl in Heq. subst x'.
    pose proof (Hid _ Hin) as Hk. simpl in Hk. rewrite Hk.
    apply has_true_iff. unfold JsMap.keys. apply in_map_iff.
    exists (k, x). auto. }
  destruct Hunknown as [Hno | Hno].
  - unfold distA in HA.
    rewrite (unknown_source_infinite _ _ _ Hno Hst) in HA. discriminate.
  - unfold distB in HB.
    rewrite (unknown_source_infinite _ _ _ Hno Hst) in HB. discriminate.
Qed.

(** X17. On an assembled graph, [calculateResults] with a workplace that
    is no station returns the empty list: every station is at [Infinity]
    from that workplace. *)
Theorem unknown_workplace_no_results (s : AppState) (cs : list GraphCall) :
  graph s = build cs ->
  ~ is_station (graph s) (workplaceA (params s)) \/
  ~ is_station (graph s) (workplaceB (params s)) ->
  results (calculateResults s) = [] /\
  forall x, In x (stations s) ->
            JsMap.get (id x) (distA s) = Some Inf \/
            JsMap.get (id x) (distB s) = Some Inf.
Proof.
  intros Hg Hunknown. split.
  - apply results_nil_iff. now apply (unknown_workplace_scored_nil s cs).
  - intros x Hx.
    assert (Hst : is_station (graph s) (id x)).
    { unfold stations in Hx. rewrite Hg in Hx |- *.
      destruct (build_nodes_ok cs) as [_ Hid]. rewrite Forall_forall in Hid.
      unfold getAllStations, JsMap.values in Hx. apply in_map_iff in Hx.
      destruct Hx as [[k x'] [Heq Hin]]. simpl in Heq. subst x'.
      pose proof (Hid _ Hin) as Hk. simpl in Hk. rewrite Hk.
      apply has_true_iff. unfold JsMap.keys. apply in_map_iff.
      exists (k, x). auto. }
    destruct Hunknown as [Hno | Hno]; [left | right].
    + apply (unknown_source_infinite _ _ _ Hno Hst).
    + apply (unknown_source_infinite _ _ _ Hno Hst).
Qed.

Lemma unknown_workplace_no_results_witness :
  results (calculateResults
             (mkApp INPUT line_XYZ (mkParams "X" "Q" 15 50 (1 # 2)) [])) = []
  /\
  forall x,
    In x (stations (mkApp INPUT line_XYZ (mkParams "X" "Q" 15 50 (1 # 2)) []))
    -> JsMap.get (id x)
         (distA (mkApp INPUT line_XYZ (mkParams "X" "Q" 15 50 (1 # 2)) []))
       = Some Inf \/
       JsMap.get (id x)
         (distB (mkApp INPUT line_XYZ (mkParams "X" "Q" 15 50 (1 # 2)) []))
       = Some Inf.
Proof.
  apply (unknown_workplace_no_results
           (mkApp INPUT line_XYZ (mkParams "X" "Q" 15 50 (1 # 2)) [])
           line_calls).
  - reflexivity.
  - right. vm_compute. discriminate.
Defined.

(** X18. [handleSearch] lets a search go ahead, by switching to the
    loading step without an alert, exactly when both workplaces are
    non-empty ids of stations; in every other case it shows an alert and
    leaves the state as it was.  On an assembled graph, a search refused
    for an id that is no station is one whose ranking would have been
    empty. *)
Theorem handleSearch_guard (s : AppState) (cs : list GraphCall) :
  graph s = build cs ->
  (snd (handleSearch s) = None <->
   workplaceA (params s) <> "" /\ workplaceB (params s) <> "" /\
   is_station (graph s) (workplaceA (params s)) /\
   is_station (graph s) (workplaceB (params s))) /\
  (snd (handleSearch s) = None ->
   fst (handleSearch s) = mkApp LOADING (graph s) (params s) (results s)) /\
  (snd (handleSearch s) <> None -> fst (handleSearch s) = s) /\
  (snd (handleSearch s) = Some AlertNotFound ->
   results (calculateResults s) = []).
Proof.
  intro Hg.
  assert (Hemp : forall str, is_empty str = false <-> str <> "").
  { intros [| c str]; simpl; split; congruence. }
  assert (Hnil : snd (handleSearch s) = Some AlertNotFound ->
                 results (calculateResults s) = []).
  { unfold handleSearch.
    destruct (is_empty (workplaceA (params s))
              || is_empty (workplaceB (params s)))%bool; [discriminate |].
    destruct (negb (JsMap.has (workplaceA (params s)) (nodes (graph s)))
              || negb (JsMap.has (workplaceB (params s)) (nodes (graph s))))%bool
      eqn:E; [| discriminate].
    intros _. apply results_nil_iff.
    apply (unknown_workplace_scored_nil s cs Hg). unfold is_station.
    apply orb_true_iff in E.
    destruct E as [E | E]; apply negb_true_iff in E; rewrite E;
      [left | right]; discriminate. }
  split; [| split; [| split; [| exact Hnil]]];
    unfold handleSearch, is_station;
    destruct (is_empty (workplaceA (params s))) eqn:EA;
    destruct (is_empty (workplaceB (params s))) eqn:EB;
    destruct (JsMap.has (workplaceA (params s)) (nodes (graph s))) eqn:HA;
    destruct (JsMap.has (workplaceB (params s)) (nodes (graph s))) eqn:HB;
    simpl; try congruence; try reflexivity.
  all: try (apply Hemp in EA); try (apply Hemp in EB).
  all: split; try discriminate; try tauto.
  all: intros [H1 [H2 [H3 H4]]]; try discriminate.
  all: try (apply Hemp in H1; congruence); try (apply Hemp in H2; congruence).
Qed.

Lemma handleSearch_guard_witness :
  (snd (handleSearch app_fresh) = None <->
   workplaceA (params app_fresh) <> "" /\
   workplaceB (params app_fresh) <> "" /\
   is_station (graph app_fresh) (workplaceA (params app_fresh)) /\
   is_station (graph app_fresh) (workplaceB (params app_fresh))) /\
  (snd (handleSearch app_fresh) = None ->
   fst (handleSearch app_fresh)
   = mkApp LOADING (graph app_fresh) (params app_fresh) (results app_fresh))
  /\
  (snd (handleSearch app_fresh) <> None ->
   fst (handleSearch app_fresh) = app_fresh) /\
  (snd (handleSearch app_fresh) = Some AlertNotFound ->
   results (calculateResults app_fresh) = []).
Proof. apply (handleSearch_guard app_fresh line_calls). reflexivity. Defined.

(** ** The fixture helpers of [initializeGraph] *)

Lemma calculateDummyRent_bounds_aux (n : string) (i total : nat) (c : bool) :
  60000 <= calculateDummyRent n i total c /\
  calculateDummyRent n i total c <= (if c then 180000 else 150000).
Proof.
  unfold calculateDummyRent. split; [apply Q.le_max_l |].
  apply Q.max_lub; [destruct c; lra |].
  pose proof (Qabs_nonneg
                (inject_Z (Z.of_nat i) - inject_Z (Z.of_nat total) / 2)).
  lra.
Qed.

(** X19. The rent of the fixture lies between 60000 and the base rent
    (180000 on the central line, 150000 elsewhere); it is the base rent
    at the middle of the line and the same at equal distances from the
    middle. *)
Theorem calculateDummyRent_bounds (n : string) (i total : nat) (c : bool) :
  60000 <= calculateDummyRent n i total c
        <= (if c then 180000 else 150000) /\
  (2 * i = total ->
   calculateDummyRent n i total c == (if c then 180000 else 150000))%nat /\
  forall j, (i + j = total)%nat ->
            calculateDummyRent n i total c == calculateDummyRent n j total c.
Proof.
  unfold calculateDummyRent.
  set (base := if c then 180000 else 150000).
  assert (Hbase : 60000 <= base) by (unfold base; destruct c; lra).
  split; [| split].
  - split; [apply Q.le_max_l |].
    apply Q.max_lub; [exact Hbase |].
    pose proof (Qabs_nonneg
                  (inject_Z (Z.of_nat i) - inject_Z (Z.of_nat total) / 2)).
    lra.
  - intro Hmid.
    assert (Hz : inject_Z (Z.of_nat i) - inject_Z (Z.of_nat total) / 2 == 0).
    { rewrite <- Hmid, Nat2Z.inj_mul, inject_Z_mult. simpl (Z.of_nat 2).
      field. }
    rewrite Hz. simpl (Qabs 0).
    rewrite Q.max_r; lra.
  - intros j Hsum.
    assert (Hneg : inject_Z (Z.of_nat i) - inject_Z (Z.of_nat total) / 2
                   == - (inject_Z (Z.of_nat j)
                         - inject_Z (Z.of_nat total) / 2)).
    { rewrite <- Hsum, Nat2Z.inj_add, inject_Z_plus. field. }
    rewrite Hneg, Qabs_opp. reflexivity.
Qed.

Lemma floor_three (r : Q) :
  0 <= r < 1 -> (0 <= Qfloor (r * 3) <= 2)%Z.
Proof.
  intros [H0 H1]. split.
  - change 0%Z with (Qfloor (inject_Z 0)). apply Qfloor_resp_le.
    change (inject_Z 0) with 0. lra.
  - assert (Hlt : (Qfloor (r * 3) < 3)%Z).
    { rewrite Zlt_Qlt. eapply Qle_lt_trans; [apply Qfloor_le |].
      change (inject_Z 3) with 3. lra. }
    lia.
Qed.

(** X20. With a draw in [0, 1) the safety score of the fixture is 3, 4 or
    5, and exactly one draw is used. *)
Theorem calculateDummySafety_range (draws : nat -> Q) (n : nat) :
  0 <= draws n < 1 ->
  (fst (calculateDummySafety draws n) == 3 \/
   fst (calculateDummySafety draws n) == 4 \/
   fst (calculateDummySafety draws n) == 5) /\
  snd (calculateDummySafety draws n) = S n.
Proof.
  intro Hd. cbv [calculateDummySafety bind ret random fst snd].
  split; [| reflexivity].
  pose proof (floor_three (draws n) Hd) as [Hlo Hhi].
  assert (Hz : Qfloor (draws n * 3) = 0%Z \/ Qfloor (draws n * 3) = 1%Z
               \/ Qfloor (draws n * 3) = 2%Z) by lia.
  destruct Hz as [Hz | [Hz | Hz]]; rewrite Hz.
  - left. reflexivity.
  - right. left. reflexivity.
  - right. right. reflexivity.
Qed.

Lemma calculateDummySafety_range_witness :
  (fst (calculateDummySafety test_draws 0%nat) == 3 \/
   fst (calculateDummySafety test_draws 0%nat) == 4 \/
   fst (calculateDummySafety test_draws 0%nat) == 5) /\
  snd (calculateDummySafety test_draws 0%nat) = 1%nat.
Proof.
  apply (calculateDummySafety_range test_draws 0%nat).
  vm_compute. split; [discriminate | reflexivity].
Defined.

(** ** Call sequences: where stations and entries come from *)

Lemma is_station_call (g : Graph) (c : GraphCall) (k : string) :
  is_station g k -> is_station (call g c) k.
Proof.
  unfold is_station. destruct c as [s | a b w]; simpl; [| auto].
  unfold addNode. destruct (JsMap.has (id s) (nodes g)); [auto |].
  simpl. rewrite set_has. intro H. rewrite H. apply orb_true_r.
Qed.

Lemma is_station_addNode (s : Station) (g : Graph) :
  is_station (addNode s g) (id s).
Proof.
  unfold is_station, addNode.
  destruct (JsMap.has (id s) (nodes g)) eqn:Hhas; [exact Hhas |].
  simpl. now rewrite set_has, String.eqb_refl.
Qed.

Lemma is_station_fold (cs : list GraphCall) (g : Graph) (k : string) :
  is_station g k -> is_station (fold_left call cs g) k.
Proof.
  revert g. induction cs as [| c cs IH]; intros g H; simpl; [exact H |].
  apply IH. now apply is_station_call.
Qed.

Lemma endpoints_known_app (g : Graph) (cs1 cs2 : list GraphCall) :
  endpoints_known g cs1 ->
  endpoints_known (fold_left call cs1 g) cs2 ->
  endpoints_known g (cs1 ++ cs2).
Proof.
  revert g. induction cs1 as [| c cs1 IH]; intros g H1 H2; simpl in *.
  - exact H2.
  - destruct H1 as [Hc H1]. split; [exact Hc | now apply IH].
Qed.

Lemma node_calls_known (names : list string) (cs : list GraphCall)
  (g : Graph) :
  Forall (node_call_of names) cs -> endpoints_known g cs.
Proof.
  revert g. induction cs as [| c cs IH]; intros g H; simpl; [exact I |].
  inversion H as [| ? ? Hc Hcs]. subst.
  split; [| now apply IH].
  destruct c; [exact I | contradiction].
Qed.

Lemma edge_calls_known (names : list string) (cs : list GraphCall)
  (g : Graph) :
  (forall x, In x names -> is_station g x) ->
  Forall (edge_call_of names) cs -> endpoints_known g cs.
Proof.
  revert g. induction cs as [| c cs IH]; intros g Hst H; simpl; [exact I |].
  inversion H as [| ? ? Hc Hcs]. subst.
  destruct c as [s | a b w]; [contradiction |].
  destruct Hc as [Ha Hb]. split; [split; auto |].
  apply IH; [| exact Hcs]. intros x Hx. apply (Hst x Hx).
Qed.

Lemma fold_entry_origin (cs : list GraphCall) (g : Graph) (k : string)
  (e : Edge) :
  graph_ok g ->
  In e (adjacency (fold_left call cs g) k) ->
  In e (adjacency g k) \/
  exists a b w, In (CallAddEdge a b w) cs /\ weight e = w /\
                ((k = a /\ to e = b) \/ (k = b /\ to e = a)).
Proof.
  revert g. induction cs as [| c cs IH]; intros g Hok Hin; simpl in *.
  - now left.
  - destruct (IH _ (call_ok g c Hok) Hin) as [Hold | [a [b [w [Hc H]]]]].
    + destruct c as [s | a b w]; simpl in Hold.
      * left. now rewrite adjacency_addNode in Hold.
      * rewrite adjacency_addEdge in Hold.
        apply in_app_or in Hold. destruct Hold as [Hold | Hnew]; [now left |].
        right. exists a, b, w. split; [now left |].
        apply in_app_or in Hnew. destruct Hnew as [Hnew | Hnew].
        -- destruct (String.eqb k a) eqn:E; simpl in Hnew;
             [| contradiction].
           apply String.eqb_eq in E.
           destruct (JsMap.has a (edges g)); simpl in Hnew;
             [| contradiction].
           destruct Hnew as [Heq | []]. subst e. simpl. auto.
        -- destruct (String.eqb k b) eqn:E; simpl in Hnew;
             [| contradiction].
           apply String.eqb_eq in E.
           destruct (JsMap.has b (edges g)); simpl in Hnew;
             [| contradiction].
           destruct Hnew as [Heq | []]. subst e. simpl. auto.
    + right. exists a, b, w. split; [now right | exact H].
Qed.

Lemma fold_station_origin (cs : list GraphCall) (g : Graph) (s : Station) :
  In s (getAllStations (fold_left call cs g)) ->
  In s (getAllStations g) \/ In (CallAddNode s) cs.
Proof.
  revert g. induction cs as [| c cs IH]; intros g Hin; simpl in *.
  - now left.
  - destruct (IH _ Hin) as [Hold | Hc]; [| right; now right].
    destruct c as [s0 | a b w]; simpl in Hold; [| now left].
    unfold addNode in Hold.
    destruct (JsMap.has (id s0) (nodes g)) eqn:Hhas; [now left |].
    unfold getAllStations in Hold. simpl in Hold.
    rewrite set_absent in Hold by exact Hhas.
    unfold JsMap.values in Hold. rewrite map_app in Hold.
    apply in_app_or in Hold. destruct Hold as [Hold | [Heq | []]].
    + now left.
    + right. left. simpl in Heq. now subst.
Qed.

Lemma fold_edge_present (cs : list GraphCall) (g : Graph)
  (a b : string) (w : Q) :
  graph_ok g -> endpoints_known g cs -> In (CallAddEdge a b w) cs ->
  In (mkEdge b w) (adjacency (fold_left call cs g) a) /\
  is_station (fold_left call cs g) a /\
  is_station (fold_left call cs g) b.
Proof.
  revert g. induction cs as [| c cs IH]; intros g Hok Hknown Hin; simpl in *.
  - contradiction.
  - destruct Hknown as [Hc Hrest]. destruct Hin as [Heq | Hin].
    + subst c. simpl in *. destruct Hc as [Ha Hb].
      destruct (addEdge_entries a b w g Hok Ha Hb) as [Hab _].
      destruct (fold_call_grows cs (addEdge a b w g) a
                  (addEdge_ok a b w g Hok)) as [[l Hl] _].
      split; [rewrite Hl; apply in_or_app; now left |].
      split; apply is_station_fold; assumption.
    + apply IH; [now apply call_ok | exact Hrest | exact Hin].
Qed.

Lemma linked_by_incl (cs cs' : list GraphCall) (h : string)
  (l : list string) :
  incl cs cs' -> linked_by cs h l -> linked_by cs' h l.
Proof.
  intro Hincl. revert h. induction l as [| b l IH]; intros h H; simpl in *.
  - exact I.
  - destruct H as [[w Hw] Hl]. split; [exists w; now apply Hincl | auto].
Qed.

(** ** What [addLine] does *)

Lemma bind_run {A B : Type} (m : Rand A) (f : A -> Rand B)
  (draws : nat -> Q) (n : nat) :
  bind m f draws n = f (fst (m draws n)) draws (snd (m draws n)).
Proof. unfold bind. now destruct (m draws n). Qed.

Lemma randomMinutes_demo (draws : nat -> Q) (n : nat) :
  unit_draws draws ->
  exists z, fst (randomMinutes draws n) = 2 + inject_Z z /\ (0 <= z <= 2)%Z.
Proof.
  intro Hd. cbv [randomMinutes bind ret random fst snd].
  exists (Qfloor (draws n * 3)). split; [reflexivity |].
  apply floor_three, Hd.
Qed.

Lemma node_call_of_mono (names names' : list string) (c : GraphCall) :
  incl names names' -> node_call_of names c -> node_call_of names' c.
Proof. intro H. destruct c; simpl; auto. Qed.

Lemma edge_call_of_mono (names names' : list string) (c : GraphCall) :
  incl names names' -> edge_call_of names c -> edge_call_of names' c.
Proof. intro H. destruct c; simpl; [auto |]. intros [Ha Hb]. auto. Qed.

Lemma addLine_nodes_calls (draws : nat -> Q) (names : list string)
  (total : nat) (c : bool) :
  unit_draws draws ->
  forall i g n,
  exists cs,
    fst (addLine_nodes names i total c g draws n) = fold_left call cs g /\
    Forall (node_call_of names) cs /\ Forall demo_call cs /\
    forall x, In x names -> is_station (fold_left call cs g) x.
Proof.
  intro Hd. induction names as [| x names IH]; intros i g n.
  - exists []. simpl. repeat split; try constructor. intros y [].
  - cbn [addLine_nodes]. rewrite bind_run.
    destruct (JsMap.has x (nodes g)) eqn:Hhas.
    + cbv [ret fst snd].
      destruct (IH (S i) g n) as [cs [Hrun [Hnode [Hdemo Hst]]]].
      exists cs. split; [exact Hrun |]. split; [| split; [exact Hdemo |]].
      * eapply Forall_impl; [| exact Hnode].
        intro a. apply node_call_of_mono. intros y Hy. now right.
      * intros y [Hy | Hy]; [| now apply Hst].
        subst y. now apply is_station_fold.
    + rewrite bind_run. cbv [ret]. cbn [fst snd].
      set (s := mkStation x x (calculateDummyRent x i total c)
                  (fst (calculateDummySafety draws n))).
      destruct (IH (S i) (addNode s g) (snd (calculateDummySafety draws n)))
        as [cs [Hrun [Hnode [Hdemo Hst]]]].
      exists (CallAddNode s :: cs). simpl.
      split; [exact Hrun |]. split; [| split].
      * constructor; [simpl; now left |].
        eapply Forall_impl; [| exact Hnode].
        intro a. apply node_call_of_mono. intros y Hy. now right.
      * constructor; [| exact Hdemo]. simpl. split; [reflexivity |].
        split.
        -- destruct (calculateDummyRent_bounds_aux x i total c) as [H1 H2].
           split; [exact H1 |]. destruct c; lra.
        -- cbv [calculateDummySafety bind ret random fst snd].
           exists (Qfloor (draws n * 3)). split; [reflexivity |].
           apply floor_three, Hd.
      * intros y [Hy | Hy]; [| now apply Hst].
        subst y. apply is_station_fold. apply (is_station_addNode s g).
Qed.

Lemma addLine_edges_calls (draws : nat -> Q) (names : list string) :
  unit_draws draws ->
  forall g n,
  exists cs,
    fst (addLine_edges names g draws n) = fold_left call cs g /\
    Forall (edge_call_of names) cs /\ Forall demo_call cs /\
    match names with
    | [] => True
    | h :: l => linked_by cs h l
    end.
Proof.
  intro Hd. induction names as [| a names IH]; intros g n.
  - exists []. simpl. repeat split; constructor.
  - destruct names as [| b l].
    + exists []. simpl. repeat split; constructor.
    + cbn [addLine_edges]. rewrite bind_run.
      set (w := fst (randomMinutes draws n)).
      destruct (IH (addEdge a b w g) (snd (randomMinutes draws n)))
        as [cs [Hrun [Hedge [Hdemo Hlink]]]].
      exists (CallAddEdge a b w :: cs). simpl.
      split; [exact Hrun |]. split; [| split; [| split]].
      * constructor; [simpl; auto |].
        eapply Forall_impl; [| exact Hedge].
        intro c. apply edge_call_of_mono. intros y Hy. now right.
      * constructor; [| exact Hdemo]. simpl. now apply randomMinutes_demo.
      * exists w. now left.
      * eapply linked_by_incl; [| exact Hlink]. intros c Hc. now right.
Qed.

Lemma last_In (l : list string) (a : string) : In (last l a) (a :: l).
Proof.
  assert (H : last l a = a \/ In (last l a) l).
  { induction l as [| b l IH]; [now left |].
    destruct l as [| c l]; [right; now left |].
    change (last (b :: c :: l) a) with (last (c :: l) a).
    destruct IH as [IH | IH]; [now left | right; now right]. }
  destruct H as [H | H]; [left; now rewrite H | now right].
Qed.

Lemma addLine_loop_calls (draws : nat -> Q) (names : list string)
  (isLoop : bool) (g : Graph) (n : nat) :
  unit_draws draws ->
  exists cs,
    fst (addLine_loop names isLoop g draws n) = fold_left call cs g /\
    Forall (edge_call_of names) cs /\ Forall demo_call cs.
Proof.
  intro Hd. unfold addLine_loop. destruct isLoop.
  - rewrite bind_run. cbv [ret]. cbn [fst].
    destruct names as [| a l]; simpl.
    + exists []. repeat split; constructor.
    + exists [CallAddEdge (last l a) a (fst (randomMinutes draws n))].
      split; [reflexivity |]. split.
      * constructor; [| constructor].
        simpl. split; [apply last_In | now left].
      * constructor; [| constructor].
        simpl. now apply randomMinutes_demo.
  - exists []. repeat split; constructor.
Qed.

Lemma line_linked_incl (cs cs' : list GraphCall) (names : list string) :
  incl cs cs' -> line_linked cs names -> line_linked cs' names.
Proof.
  intro H. destruct names as [| h l]; simpl; [auto |].
  now apply linked_by_incl.
Qed.

Lemma addLine_calls (draws : nat -> Q) (names : list string)
  (isLoop isCenter : bool) (g : Graph) (n : nat) :
  unit_draws draws ->
  exists cs,
    fst (addLine names isLoop isCenter g draws n) = fold_left call cs g /\
    line_calls_ok names cs /\ endpoints_known g cs.
Proof.
  intro Hd. unfold addLine. rewrite !bind_run.
  destruct (addLine_nodes_calls draws names (List.length names) isCenter Hd
              0%nat g n) as [cs1 [Hrun1 [Hnode1 [Hdemo1 Hst1]]]].
  set (r1 := addLine_nodes names 0 (List.length names) isCenter g draws n)
    in *.
  destruct (addLine_edges_calls draws names Hd (fst r1) (snd r1))
    as [cs2 [Hrun2 [Hedge2 [Hdemo2 Hlink2]]]].
  set (r2 := addLine_edges names (fst r1) draws (snd r1)) in *.
  destruct (addLine_loop_calls draws names isLoop (fst r2) (snd r2) Hd)
    as [cs3 [Hrun3 [Hedge3 Hdemo3]]].
  exists (cs1 ++ cs2 ++ cs3).
  rewrite Hrun3, Hrun2, Hrun1, !fold_left_app.
  split; [reflexivity |]. split; [split; [| split] |].
  - apply Forall_app. split; [exact Hdemo1 |].
    apply Forall_app. split; assumption.
  - apply Forall_app. split.
    + eapply Forall_impl; [| exact Hnode1]. intros c Hc. now left.
    + apply Forall_app. split.
      * eapply Forall_impl; [| exact Hedge2]. intros c Hc. now right.
      * eapply Forall_impl; [| exact Hedge3]. intros c Hc. now right.
  - unfold line_linked. destruct names as [| h l]; [exact I |].
    eapply linked_by_incl; [| exact Hlink2].
    intros c Hc. apply in_or_app. right. apply in_or_app. now left.
  - apply endpoints_known_app; [eapply node_calls_known; exact Hnode1 |].
    apply endpoints_known_app.
    + eapply edge_calls_known; [| exact Hedge2]. exact Hst1.
    + eapply edge_calls_known; [| exact Hedge3].
      intros x Hx. apply is_station_fold. now apply Hst1.
Qed.

Lemma line_calls_network (names : list string) (cs : list GraphCall) :
  In names demo_lines -> line_calls_ok names cs ->
  Forall demo_call cs /\
  Forall (fun c => exists names, In names demo_lines /\
                     (node_call_of names c \/ edge_call_of names c)) cs.
Proof.
  intros Hin [Hdemo [Hof _]]. split; [exact Hdemo |].
  eapply Forall_impl; [| exact Hof]. intros c Hc. eauto.
Qed.

Lemma initializeGraph_calls (draws : nat -> Q) (n : nat) :
  unit_draws draws ->
  exists cs, fst (initializeGraph draws n) = build cs /\ network_calls cs.
Proof.
  intro Hd. unfold initializeGraph. rewrite !bind_run.
  destruct (addLine_calls draws yamanoteStations true true newGraph n Hd)
    as [cs1 [Hrun1 [Hok1 Hk1]]].
  set (r1 := addLine yamanoteStations true true newGraph draws n) in *.
  destruct (addLine_calls draws chuoStations false false (fst r1) (snd r1) Hd)
    as [cs2 [Hrun2 [Hok2 Hk2]]].
  set (r2 := addLine chuoStations false false (fst r1) draws (snd r1)) in *.
  destruct (addLine_calls draws keihinTohokuStations false false
              (fst r2) (snd r2) Hd) as [cs3 [Hrun3 [Hok3 Hk3]]].
  set (r3 := addLine keihinTohokuStations false false (fst r2) draws (snd r2))
    in *.
  destruct (addLine_calls draws toyokoStations false false
              (fst r3) (snd r3) Hd) as [cs4 [Hrun4 [Hok4 Hk4]]].
  exists (cs1 ++ cs2 ++ cs3 ++ cs4). unfold build.
  rewrite Hrun4, Hrun3, Hrun2, Hrun1, !fold_left_app.
  split; [reflexivity |].
  rewrite Hrun1 in Hk2. rewrite Hrun2, Hrun1 in Hk3.
  rewrite Hrun3, Hrun2, Hrun1 in Hk4.
  destruct (line_calls_network yamanoteStations cs1) as [Hd1 Hl1];
    [simpl; tauto | exact Hok1 |].
  destruct (line_calls_network chuoStations cs2) as [Hd2 Hl2];
    [simpl; tauto | exact Hok2 |].
  destruct (line_calls_network keihinTohokuStations cs3) as [Hd3 Hl3];
    [simpl; tauto | exact Hok3 |].
  destruct (line_calls_network toyokoStations cs4) as [Hd4 Hl4];
    [simpl; tauto | exact Hok4 |].
  split; [| split; [| split]].
  - apply endpoints_known_app; [exact Hk1 |].
    apply endpoints_known_app; [exact Hk2 |].
    apply endpoints_known_app; assumption.
  - repeat (apply Forall_app; split); assumption.
  - repeat (apply Forall_app; split); assumption.
  - destruct Hok1 as [_ [_ L1]]. destruct Hok2 as [_ [_ L2]].
    destruct Hok3 as [_ [_ L3]]. destruct Hok4 as [_ [_ L4]].
    unfold demo_lines.
    apply Forall_cons; [| apply Forall_cons; [| apply Forall_cons;
      [| apply Forall_cons; [| apply Forall_nil]]]].
    + eapply line_linked_incl; [| exact L1]. intros c Hc.
      apply in_or_app. now left.
    + eapply line_linked_incl; [| exact L2]. intros c Hc.
      apply in_or_app. right. apply in_or_app. now left.
    + eapply line_linked_incl; [| exact L3]. intros c Hc.
      apply in_or_app. right. apply in_or_app. right.
      apply in_or_app. now left.
    + eapply line_linked_incl; [| exact L4]. intros c Hc.
      apply in_or_app. right. apply in_or_app. right.
      apply in_or_app. now right.
Qed.

Lemma newGraph_ok : graph_ok newGraph.
Proof. intro k. reflexivity. Qed.

Lemma newGraph_symmetric : symmetric newGraph.
Proof. intros u v w Hin. unfold adjacency in Hin. simpl in Hin. contradiction. Qed.

Lemma demo_minutes (z : Z) :
  (0 <= z <= 2)%Z -> 2 <= 2 + inject_Z z <= 4.
Proof.
  intros [Hlo Hhi]. rewrite Zle_Qle in Hlo, Hhi.
  change (inject_Z 0) with 0 in Hlo. change (inject_Z 2) with 2 in Hhi.
  lra.
Qed.

(** X21. Whatever the draws in [0, 1), the network built by
    [initializeGraph] is symmetric, every adjacency entry takes 2 to 4
    minutes and leads to a station, and every station is named by its id,
    with a rent between 60000 and 180000 and a safety score from 3 to 5. *)
Theorem initializeGraph_well_formed (draws : nat -> Q) (n : nat) :
  unit_draws draws ->
  symmetric (fst (initializeGraph draws n)) /\
  (forall k e, In e (adjacency (fst (initializeGraph draws n)) k) ->
               2 <= weight e <= 4 /\
               is_station (fst (initializeGraph draws n)) (to e)) /\
  (forall s, In s (getAllStations (fst (initializeGraph draws n))) ->
             name s = id s /\ 60000 <= rent s <= 180000 /\
             3 <= safetyScore s <= 5).
Proof.
  intro Hd.
  destruct (initializeGraph_calls draws n Hd) as [cs [Hg [Hk [Hdemo _]]]].
  rewrite Hg. rewrite Forall_forall in Hdemo.
  split; [| split].
  - apply fold_call_symmetric;
      [apply newGraph_ok | apply newGraph_symmetric | exact Hk].
  - intros k e He.
    destruct (fold_entry_origin cs newGraph k e newGraph_ok He)
      as [Hold | [a [b [w [Hc [Hw Hends]]]]]].
    + unfold adjacency in Hold. simpl in Hold. contradiction.
    + pose proof (Hdemo _ Hc) as [z [Hz Hrange]]. simpl in Hz.
      destruct (fold_edge_present cs newGraph a b w newGraph_ok Hk Hc)
        as [_ [Ha Hb]].
      split.
      * rewrite Hw, Hz. now apply demo_minutes.
      * destruct Hends as [[_ Hto] | [_ Hto]]; rewrite Hto; assumption.
  - intros s Hs.
    destruct (fold_station_origin cs newGraph s Hs) as [Hold | Hc].
    + simpl in Hold. contradiction.
    + pose proof (Hdemo _ Hc) as [Hname [Hrent [z [Hz Hrange]]]].
      split; [exact Hname |]. split; [exact Hrent |].
      rewrite Hz. destruct Hrange as [Hlo Hhi].
      rewrite Zle_Qle in Hlo, Hhi.
      change (inject_Z 0) with 0 in Hlo. change (inject_Z 2) with 2 in Hhi.
      lra.
Qed.

Lemma test_draws_unit : unit_draws test_draws.
Proof.
  intro n. unfold test_draws.
  destruct (Nat.modulo n 3) as [| [| m]]; split; lra.
Qed.

Lemma initializeGraph_well_formed_witness :
  symmetric (fst (initializeGraph test_draws 0%nat)) /\
  (forall k e, In e (adjacency (fst (initializeGraph test_draws 0%nat)) k) ->
               2 <= weight e <= 4 /\
               is_station (fst (initializeGraph test_draws 0%nat)) (to e)) /\
  (forall s, In s (getAllStations (fst (initializeGraph test_draws 0%nat))) ->
             name s = id s /\ 60000 <= rent s <= 180000 /\
             3 <= safetyScore s <= 5).
Proof.
  apply (initializeGraph_well_formed test_draws 0%nat).
  exact test_draws_unit.
Defined.

(** ** The demonstration network is connected *)

Lemma reach_trans (g : Graph) (a b c : string) :
  reach g a b -> reach g b c -> reach g a c.
Proof.
  intros [q1 H1] [q2 H2].
  destruct (walk_append g a b c q1 q2 H1 H2) as [q [H _]]. now exists q.
Qed.

Lemma reach_sym (g : Graph) (a b : string) :
  symmetric g -> reach g a b -> reach g b a.
Proof.
  intros Hsym [q H].
  destruct (walk_reverse g a b q Hsym H) as [q' [H' _]]. now exists q'.
Qed.

Lemma linked_reach (cs : list GraphCall) (l : list string) :
  endpoints_known newGraph cs ->
  forall h, linked_by cs h l ->
            forall x, In x l -> reach (build cs) h x.
Proof.
  intro Hk. induction l as [| b l IH]; intros h Hl x Hx; [contradiction |].
  destruct Hl as [[w Hw] Hl].
  destruct (fold_edge_present cs newGraph h b w newGraph_ok Hk Hw)
    as [He [Hh Hb]].
  assert (Hhb : reach (build cs) h b).
  { exists (0 + w).
    apply (walk_step (build cs) h h (mkEdge b w) 0); auto. apply walk_here. }
  destruct Hx as [Hx | Hx].
  - now subst x.
  - eapply reach_trans; [exact Hhb |]. now apply IH.
Qed.

Lemma line_reach (cs : list GraphCall) (names : list string) :
  endpoints_known newGraph cs -> line_linked cs names ->
  forall h x, hd_error names = Some h -> In x names ->
              reach (build cs) h x.
Proof.
  intros Hk Hl h x Hh Hx. destruct names as [| h' l]; [contradiction |].
  simpl in Hh. inversion Hh. subst h'. destruct Hx as [Hx | Hx].
  - subst x. exists 0. apply walk_here.
  - now apply (linked_reach cs l Hk h).
Qed.

Lemma In_namesb (x : string) (l : list string) :
  JsSet.has x l = true -> In x l.
Proof. apply JsSet_has_iff. Qed.

Lemma hub_reach (cs : list GraphCall) (names : list string) (x : string) :
  network_calls cs -> In names demo_lines -> In x names ->
  reach (build cs) "東京" x.
Proof.
  intros [Hk [_ [_ Hlines]]] Hin Hx.
  assert (Hsym : symmetric (build cs)).
  { apply fold_call_symmetric;
      [apply newGraph_ok | apply newGraph_symmetric | exact Hk]. }
  rewrite Forall_forall in Hlines.
  assert (Hline : forall names' h y,
             In names' demo_lines -> hd_error names' = Some h ->
             In y names' -> reach (build cs) h y).
  { intros names' h y Hn Hh Hy.
    apply (line_reach cs names' Hk (Hlines _ Hn) h y Hh Hy). }
  assert (Hyam : In yamanoteStations demo_lines) by (simpl; tauto).
  assert (Hkei : In keihinTohokuStations demo_lines) by (simpl; tauto).
  simpl in Hin. destruct Hin as [H | [H | [H | [H | []]]]]; subst names.
  - now apply (Hline yamanoteStations).
  - now apply (Hline chuoStations); [simpl; tauto | reflexivity |].
  - apply reach_trans with (b := "大宮").
    + apply reach_sym; [exact Hsym |].
      apply (Hline keihinTohokuStations); [exact Hkei | reflexivity |].
      apply In_namesb. vm_compute. reflexivity.
    + now apply (Hline keihinTohokuStations).
  - apply reach_trans with (b := "渋谷").
    + apply (Hline yamanoteStations); [exact Hyam | reflexivity |].
      apply In_namesb. vm_compute. reflexivity.
    + now apply (Hline toyokoStations); [simpl; tauto | reflexivity |].
Qed.

Lemma network_station_named (cs : list GraphCall) (k : string) :
  network_calls cs -> is_station (build cs) k ->
  exists names, In names demo_lines /\ In k names.
Proof.
  intros [_ [_ [Hof _]]] Hk.
  destruct (station_listed cs k Hk) as [s [Hs Hid]].
  destruct (fold_station_origin cs newGraph s Hs) as [Hold | Hc].
  - simpl in Hold. contradiction.
  - rewrite Forall_forall in Hof.
    destruct (Hof _ Hc) as [names [Hin [Hnode | Hedge]]].
    + exists names. split; [exact Hin |]. simpl in Hnode. now rewrite <- Hid.
    + simpl in Hedge. contradiction.
Qed.

Lemma network_connected (cs : list GraphCall) (a b : string) :
  network_calls cs ->
  is_station (build cs) a -> is_station (build cs) b ->
  reach (build cs) a b.
Proof.
  intros Hnet Ha Hb.
  destruct (network_station_named cs a Hnet Ha) as [na [Hna Hina]].
  destruct (network_station_named cs b Hnet Hb) as [nb [Hnb Hinb]].
  assert (Hsym : symmetric (build cs)).
  { destruct Hnet as [Hk _]. apply fold_call_symmetric;
      [apply newGraph_ok | apply newGraph_symmetric | exact Hk]. }
  apply reach_trans with (b := "東京").
  - apply reach_sym; [exact Hsym |]. now apply (hub_reach cs na).
  - now apply (hub_reach cs nb).
Qed.

(** X22. Whatever the draws in [0, 1), the network built by
    [initializeGraph] is connected: a walk leads from every station to
    every station. *)
Theorem initializeGraph_connected (draws : nat -> Q) (n : nat)
  (a b : string) :
  unit_draws draws ->
  is_station (fst (initializeGraph draws n)) a ->
  is_station (fst (initializeGraph draws n)) b ->
  exists q, walk (fst (initializeGraph draws n)) a b q.
Proof.
  intros Hd Ha Hb.
  destruct (initializeGraph_calls draws n Hd) as [cs [Hg Hnet]].
  rewrite Hg in *. now apply network_connected.
Qed.

Lemma initializeGraph_connected_witness :
  exists q, walk (fst (initializeGraph test_draws 0%nat)) "八王子" "横浜" q.
Proof.
  apply (initializeGraph_connected test_draws 0%nat "八王子" "横浜").
  - exact test_draws_unit.
  - vm_compute. reflexivity.
  - vm_compute. reflexivity.
Defined.

Lemma distinctb_NoDup (l : list string) : distinctb l = true -> NoDup l.
Proof.
  induction l as [| x l IH]; simpl; intro H; [constructor |].
  apply andb_true_iff in H. destruct H as [Hx Hl].
  constructor; [| now apply IH].
  intro Hin. apply JsSet_has_iff in Hin. rewrite Hin in Hx. discriminate.
Qed.

Lemma all_scored_length (s : AppState) :
  (forall x, In x (stations s) -> exists r, score_of s x = Some r) ->
  List.length (scoredStations s) = List.length (stations s).
Proof.
  intro Hall. rewrite scoredStations_eq.
  induction (stations s) as [| x l IH]; [reflexivity |].
  simpl. rewrite length_app, IH by (intros y Hy; apply Hall; now right).
  destruct (Hall x (or_introl eq_refl)) as [r Hr]. now rewrite Hr.
Qed.

(** X23. On the network built by [initializeGraph], whatever the draws in
    [0, 1), a search between two stations scores every station, and the
    result list holds exactly 10 entries. *)
Theorem demo_search_returns_ten (draws : nat -> Q) (n : nat)
  (s : AppState) :
  unit_draws draws ->
  graph s = fst (initializeGraph draws n) ->
  is_station (graph s) (workplaceA (params s)) ->
  is_station (graph s) (workplaceB (params s)) ->
  List.length (scoredStations s) = List.length (stations s) /\
  List.length (results (calculateResults s)) = 10%nat.
Proof.
  intros Hd Hg HA HB.
  destruct (initializeGraph_calls draws n Hd) as [cs [Hcs Hnet]].
  rewrite Hcs in Hg. clear Hcs.
  assert (Hw : weights_nonneg (graph s)).
  { rewrite Hg. intros k e He. destruct Hnet as [Hk [Hdemo _]].
    destruct (fold_entry_origin cs newGraph k e newGraph_ok He)
      as [Hold | [a [b [w [Hc [Hwe _]]]]]].
    - unfold adjacency in Hold. simpl in Hold. contradiction.
    - rewrite Forall_forall in Hdemo.
      pose proof (Hdemo _ Hc) as [z [Hz Hrange]]. simpl in Hz.
      rewrite Hwe, Hz. pose proof (demo_minutes z Hrange). lra. }
  assert (Hfin : forall src k, is_station (graph s) src ->
                               is_station (graph s) k ->
                               finite_at (dijkstra (graph s) src) k).
  { intros src k Hsrc Hk. rewrite Hg in Hsrc, Hk.
    destruct (network_connected cs src k Hnet Hsrc Hk) as [q Hwalk].
    rewrite <- Hg in Hwalk.
    destruct (walk_bounds_distance _ _ _ _ Hw Hwalk) as [d [Hget Hle]].
    destruct d as [x |]; [| contradiction]. now exists x. }
  assert (Hlisted : forall x, In x (stations s) -> is_station (graph s) (id x)).
  { intros x Hx. unfold stations in Hx. rewrite Hg in Hx |- *.
    destruct (build_nodes_ok cs) as [_ Hid]. rewrite Forall_forall in Hid.
    unfold getAllStations, JsMap.values in Hx. apply in_map_iff in Hx.
    destruct Hx as [[k x'] [Heq Hin]]. simpl in Heq. subst x'.
    pose proof (Hid _ Hin) as Hkx. simpl in Hkx. rewrite Hkx.
    apply has_true_iff. unfold JsMap.keys. apply in_map_iff.
    exists (k, x). auto. }
  assert (Hlen : List.length (scoredStations s) = List.length (stations s)).
  { apply all_scored_length. intros x Hx. apply score_of_finite.
    split; [apply (Hfin _ _ HA) | apply (Hfin _ _ HB)]; now apply Hlisted. }
  split; [exact Hlen |].
  assert (Hmany : (30 <= List.length (stations s))%nat).
  { unfold stations, getAllStations, JsMap.values. rewrite length_map.
    rewrite <- (length_map fst).
    change (map fst (nodes (graph s))) with (JsMap.keys (nodes (graph s))).
    change 30%nat with (List.length yamanoteStations).
    apply NoDup_incl_length.
    - apply distinctb_NoDup. vm_compute. reflexivity.
    - intros x Hx. apply has_true_iff. rewrite Hg.
      destruct (hub_reach cs yamanoteStations x Hnet) as [q Hwalk];
        [simpl; tauto | exact Hx |].
      inversion Hwalk as [Heq | u e q' Hw' Hu Hv He Heq]; subst.
      + destruct Hnet as [Hk [_ [_ Hlines]]].
        rewrite Forall_forall in Hlines.
        assert (Hl : line_linked cs yamanoteStations)
          by (apply Hlines; simpl; tauto).
        simpl in Hl. destruct Hl as [[w Hc] _].
        now destruct (fold_edge_present cs newGraph _ _ w newGraph_ok Hk Hc)
          as [_ [Hst _]].
      + exact Hv. }
  rewrite calculateResults_results, length_firstn.
  rewrite (Permutation_length (sort_by_perm by_score_desc _)), Hlen.
  lia.
Qed.

Lemma demo_search_returns_ten_witness :
  List.length
    (scoredStations
       (mkApp INPUT (fst (initializeGraph test_draws 0%nat))
          (mkParams "八王子" "横浜" 150000 50 (1 # 2)) []))
  = List.length
      (stations
         (mkApp INPUT (fst (initializeGraph test_draws 0%nat))
            (mkParams "八王子" "横浜" 150000 50 (1 # 2)) [])) /\
  List.length
    (results
       (calculateResults
          (mkApp INPUT (fst (initializeGraph test_draws 0%nat))
             (mkParams "八王子" "横浜" 150000 50 (1 # 2)) [])))
  = 10%nat.
Proof.
  apply (demo_search_returns_ten test_draws 0%nat
           (mkApp INPUT (fst (initializeGraph test_draws 0%nat))
              (mkParams "八王子" "横浜" 150000 50 (1 # 2)) [])).
  - exact test_draws_unit.
  - reflexivity.
  - vm_compute. reflexivity.
  - vm_compute. reflexivity.
Defined.

(** ** The result list: no station twice, total time at equal weights *)

Lemma kept_ids_distinct (keep : Station -> bool) (l : list Station) :
  NoDup (map id l) -> NoDup (map id (filter keep l)).
Proof.
  intro Hnd. induction l as [| x l IH]; [constructor |].
  simpl in Hnd. apply NoDup_cons_iff in Hnd. destruct Hnd as [Hx Hl].
  simpl. destruct (keep x); [| now apply IH].
  simpl. apply NoDup_cons; [| now apply IH].
  intro Hin. apply Hx. apply in_map_iff in Hin.
  destruct Hin as [y [Hy Hin]]. apply filter_In in Hin.
  rewrite <- Hy. apply in_map. apply Hin.
Qed.

Lemma filter_all {A : Type} (l : list A) : filter (fun _ => true) l = l.
Proof. induction l as [| x l IH]; simpl; [reflexivity | now rewrite IH]. Qed.

(** X24. On an assembled graph no station appears twice in the result
    list. *)
Theorem results_distinct (s : AppState) (cs : list GraphCall) :
  graph s = build cs ->
  NoDup (map (fun r => id (station r)) (results (calculateResults s))).
Proof.
  intro Hg.
  assert (Hscored : NoDup (map (fun r => id (station r)) (scoredStations s))).
  { rewrite <- (map_map station id), scoredStations_eq.
    rewrite <- (filter_all
                  (flat_map (fun x => opt_list (score_of s x)) (stations s))).
    rewrite scored_class_stations. apply kept_ids_distinct.
    unfold stations. rewrite Hg.
    destruct (build_nodes_ok cs) as [Hnd Hid].
    rewrite Forall_forall in Hid.
    replace (map id (getAllStations (build cs)))
      with (JsMap.keys (nodes (build cs))); [exact Hnd |].
    unfold getAllStations, JsMap.values, JsMap.keys. rewrite map_map.
    apply map_ext_in. intros kv Hkv. symmetry. now apply Hid. }
  rewrite calculateResults_results.
  assert (Hsorted : NoDup (map (fun r => id (station r))
                             (sort_by by_score_desc (scoredStations s)))).
  { eapply Permutation_NoDup; [| exact Hscored].
    apply Permutation_map. symmetry. apply sort_by_perm. }
  rewrite <- (firstn_skipn 10 (sort_by by_score_desc (scoredStations s)))
    in Hsorted.
  rewrite map_app in Hsorted. now apply NoDup_app_remove_r in Hsorted.
Qed.

Lemma results_distinct_witness :
  NoDup (map (fun r => id (station r)) (results (calculateResults app_fresh))).
Proof. apply (results_distinct app_fresh line_calls). reflexivity. Defined.

(** X25. At [ratio = 50] and [lambda = 0], between two scored stations
    within budget the one with the smaller total time [timeA + timeB]
    scores strictly higher, as long as the totals lie between 0 and 120
    minutes. *)
Theorem total_time_ranking (s : AppState) (r1 r2 : StationResult) :
  ratio (params s) == 50 -> lambda (params s) == 0 ->
  In r1 (scoredStations s) -> In r2 (scoredStations s) ->
  rent (station r1) <= budget (params s) ->
  rent (station r2) <= budget (params s) ->
  0 <= timeA r1 + timeB r1 ->
  timeA r1 + timeB r1 < timeA r2 + timeB r2 ->
  timeA r2 + timeB r2 <= 120 ->
  score r2 < score r1.
Proof.
  intros Hratio Hlam H1 H2 Hb1 Hb2 Hpos Hlt Hmax.
  apply In_scoredStations in H1. destruct H1 as [x1 [_ Hs1]].
  apply In_scoredStations in H2. destruct H2 as [x2 [_ Hs2]].
  apply score_station_some in Hs1. destruct Hs1 as [Hx1 [_ [_ [Hsc1 _]]]].
  apply score_station_some in Hs2. destruct Hs2 as [Hx2 [_ [_ [Hsc2 _]]]].
  rewrite <- Hx1 in Hsc1. rewrite <- Hx2 in Hsc2.
  apply Qltb_false_iff in Hb1, Hb2. rewrite Hb1 in Hsc1. rewrite Hb2 in Hsc2.
  assert (Hw : weights (ratio (params s)) = (1, 1)).
  { unfold weights.
    assert (E1 : Qltb (ratio (params s)) 50 = false)
      by (apply Qltb_false_iff; lra).
    assert (E2 : Qltb 50 (ratio (params s)) = false)
      by (apply Qltb_false_iff; lra).
    now rewrite E1, E2. }
  rewrite Hw in Hsc1, Hsc2. simpl in Hsc1, Hsc2.
  assert (Hraw : forall a b,
             unpenalized_score 1 1 (lambda (params s)) a b
             == 100 - ((a + b) / 120) * 100).
  { intros a b. unfold unpenalized_score. rewrite Hlam. field. }
  assert (Hdiv : forall x y, x < y -> x / 120 < y / 120).
  { intros x y Hxy. apply Qmult_lt_compat_r; [reflexivity | exact Hxy]. }
  assert (Hdivle : forall x y, x <= y -> x / 120 <= y / 120).
  { intros x y Hxy. apply Qmult_le_compat_r; [exact Hxy | discriminate]. }
  pose proof (Hdiv _ _ Hlt) as Hd1.
  pose proof (Hdivle _ _ Hmax) as Hd2.
  pose proof (Hdivle _ _ Hpos) as Hd3.
  assert (H120 : 120 / 120 == 1) by reflexivity.
  assert (H0 : 0 / 120 == 0) by reflexivity.
  assert (Hclamp : forall x, 0 <= x <= 100 -> clamp_0_100 x == x).
  { intros x [Hlo Hhi]. unfold clamp_0_100.
    rewrite (Q.min_r 100 x) by exact Hhi. now apply Q.max_r. }
  rewrite Hsc1, Hsc2.
  rewrite !Hclamp; rewrite ?Hraw; try split; lra.
Qed.

Lemma total_time_ranking_witness :
  score (mkResult (st "Q" 10) 10 10 (10000 # 120) (Balanced "Q"))
  < score (mkResult (st "P" 10) 5 5 (11000 # 120) (Balanced "P")).
Proof.
  apply (total_time_ranking app_fork
           (mkResult (st "P" 10) 5 5 (11000 # 120) (Balanced "P"))
           (mkResult (st "Q" 10) 10 10 (10000 # 120) (Balanced "Q"))).
  - reflexivity.
  - reflexivity.
  - vm_compute. right. right. right. left. reflexivity.
  - vm_compute. right. right. left. reflexivity.
  - vm_compute. discriminate.
  - vm_compute. discriminate.
  - vm_compute. discriminate.
  - vm_compute. reflexivity.
  - vm_compute. discriminate.
Defined.
